(** * Solar system: orbital motion and ship navigation

    A shallow embedding of the kinematics of the solar-system scene:
    [PlanetPhysics.updatePosition] (the orbital motion update), the
    keyboard listeners of the ship, and [moveAndRotateSpaceShip] (the
    per-frame ship and camera-pivot update).

    JavaScript numbers are modelled by the real numbers [R]: every
    statement below is about the exact arithmetic of the formulas, the
    rounding of IEEE doubles is outside the model. *)

From Stdlib Require Import Reals Lra Lia List Bool String Ascii.
Import ListNotations.

Local Open Scope R_scope.

(** ** The part of three.js the program calls *)

Module Three.

(** [THREE.Vector3]. *)
Record Vector3 : Type := mkVector3 { vx : R; vy : R; vz : R }.

(** [THREE.Euler], with the default order ['XYZ']. *)
Record Euler : Type := mkEuler { ex : R; ey : R; ez : R }.

(** The transform of a [THREE.Object3D] that sits directly in the scene. *)
Record Object3D : Type := mkObject3D {
  position : Vector3;
  rotation : Euler;
  scale : Vector3
}.

(** [v.add(u)] *)
Definition add (v u : Vector3) : Vector3 :=
  mkVector3 (vx v + vx u) (vy v + vy u) (vz v + vz u).

(** [v.multiplyScalar(s)] *)
Definition multiplyScalar (v : Vector3) (s : R) : Vector3 :=
  mkVector3 (vx v * s) (vy v * s) (vz v * s).

(** [v.lengthSq()] and [v.length()] *)
Definition lengthSq (v : Vector3) : R :=
  vx v * vx v + vy v * vy v + vz v * vz v.

Definition length (v : Vector3) : R := sqrt (lengthSq v).

(** [v.normalize()], that is [v.divideScalar(v.length() || 1)]. *)
Definition normalize (v : Vector3) : Vector3 :=
  let l := length v in
  let d := if Req_dec_T l 0 then 1 else l in
  multiplyScalar v (/ d).

(** [MathUtils.lerp(x, y, t)] is [(1 - t) * x + t * y]. *)
Definition lerp (x y t : R) : R := (1 - t) * x + t * y.

(** The third column of the rotation matrix of an ['XYZ'] Euler triple
    ([Matrix4.makeRotationFromEuler], elements 8, 9 and 10). *)
Definition zAxis (e : Euler) : Vector3 :=
  mkVector3 (sin (ey e))
            (- (sin (ex e) * cos (ey e)))
            (cos (ex e) * cos (ey e)).

(** [o.getWorldDirection(target)] for an object whose parent is the
    untransformed scene: elements 8, 9 and 10 of its world matrix (the
    rotated z axis, scaled by [scale.z]), normalized. *)
Definition getWorldDirection (o : Object3D) : Vector3 :=
  normalize (multiplyScalar (zAxis (rotation o)) (vz (scale o))).

(** Field updates of an object. *)
Definition setPosition (o : Object3D) (p : Vector3) : Object3D :=
  mkObject3D p (rotation o) (scale o).

Definition setRotationX (o : Object3D) (a : R) : Object3D :=
  mkObject3D (position o) (mkEuler a (ey (rotation o)) (ez (rotation o))) (scale o).

Definition setRotationY (o : Object3D) (a : R) : Object3D :=
  mkObject3D (position o) (mkEuler (ex (rotation o)) a (ez (rotation o))) (scale o).

Definition setRotationZ (o : Object3D) (a : R) : Object3D :=
  mkObject3D (position o) (mkEuler (ex (rotation o)) (ey (rotation o)) a) (scale o).

End Three.

Import Three.

(** ** Orbital motion: [PlanetPhysics] *)

Record PhysicsParams : Type := mkPhysicsParams {
  radius : R;
  rotationVelocity : R;
  selfRotationVelocity : R;
  rotationCenter : Vector3
}.

Record PlanetPhysics : Type := mkPlanetPhysics {
  params : PhysicsParams;
  t : R;
  ownMesh : Object3D
}.

(** [updatePosition(dt)]: the mesh is placed on the circle of the given radius
    around the x and z of [rotationCenter], at height [0], and turned about
    its own axis by [selfRotationVelocity * dt].  The method reads [this.t]
    and does not write it. *)
Definition updatePosition (dt : R) (p : PlanetPhysics) : PlanetPhysics :=
  let x := radius (params p) * sin (t p * rotationVelocity (params p))
           + vx (rotationCenter (params p)) in
  let z := radius (params p) * cos (t p * rotationVelocity (params p))
           + vz (rotationCenter (params p)) in
  let m := setPosition (ownMesh p) (mkVector3 x 0 z) in
  let m := setRotationY m (ey (rotation m) + selfRotationVelocity (params p) * dt) in
  mkPlanetPhysics (params p) (t p) m.

(** Modelled from the spec: the accumulation of the orbit phase, which the
    listing of [PlanetPhysics] does not show.  The spec's words are
    "Accumulate an internal phase [t += dt]". *)
Definition advancePhase (dt : R) (p : PlanetPhysics) : PlanetPhysics :=
  mkPlanetPhysics (params p) (t p + dt) (ownMesh p).

(** The position that [updatePosition] computes for a body. *)
Definition computedPosition (p : PlanetPhysics) : Vector3 :=
  position (ownMesh (updatePosition 0 p)).

(** A body with the given orbit, phase [t0], mesh at the origin. *)
Definition body (r w : R) (c : Vector3) (t0 : R) : PlanetPhysics :=
  mkPlanetPhysics (mkPhysicsParams r w 0 c) t0
    (mkObject3D (mkVector3 0 0 0) (mkEuler 0 0 0) (mkVector3 1 1 1)).

(** The positions computed at the start and after each advance of the phase
    by the successive [dts]. *)
Fixpoint positionsAlong (dts : list R) (p : PlanetPhysics) : list Vector3 :=
  match dts with
  | [] => [computedPosition p]
  | dt :: dts' => computedPosition p :: positionsAlong dts' (advancePhase dt p)
  end.

(** Two positions agree within [eps] in every coordinate. *)
Definition closeTo (eps : R) (u v : Vector3) : Prop :=
  Rabs (vx u - vx v) <= eps /\ Rabs (vy u - vy v) <= eps /\ Rabs (vz u - vz v) <= eps.

(** ** Ship navigation: the state of [main.ts] *)

(** The values of [currentPlanet]: [null] (free view), the physics of a
    body of the list (named by its index), or the object
    [{ mesh: null, spacial: true }] of the ship view. *)
Inductive Focus : Type :=
| FocusNull
| FocusBody (i : nat)
| FocusSpacial.

(** [currentPlanet?.spacial], as a truth value. *)
Definition spacial (f : Focus) : bool :=
  match f with
  | FocusSpacial => true
  | _ => false
  end.

(** The module-level variables that the listeners and the frame update
    share.  [spaceShip] is [None] while it is [null], before the model is
    loaded. *)
Record World : Type := mkWorld {
  spaceShip : option Object3D;
  cameraPivot : Object3D;
  moveForward : bool;
  moveBackward : bool;
  rotateLeft : bool;
  rotateRight : bool;
  currentPlanet : Focus
}.

(** The four directions that the keys name. *)
Inductive Direction : Type := Forward | Backward | YawLeft | YawRight.

Definition Direction_eqb (d d' : Direction) : bool :=
  match d, d' with
  | Forward, Forward | Backward, Backward
  | YawLeft, YawLeft | YawRight, YawRight => true
  | _, _ => false
  end.

Definition flag (d : Direction) (w : World) : bool :=
  match d with
  | Forward => moveForward w
  | Backward => moveBackward w
  | YawLeft => rotateLeft w
  | YawRight => rotateRight w
  end.

Definition setFlag (d : Direction) (b : bool) (w : World) : World :=
  match d with
  | Forward =>
      mkWorld (spaceShip w) (cameraPivot w) b (moveBackward w)
              (rotateLeft w) (rotateRight w) (currentPlanet w)
  | Backward =>
      mkWorld (spaceShip w) (cameraPivot w) (moveForward w) b
              (rotateLeft w) (rotateRight w) (currentPlanet w)
  | YawLeft =>
      mkWorld (spaceShip w) (cameraPivot w) (moveForward w) (moveBackward w)
              b (rotateRight w) (currentPlanet w)
  | YawRight =>
      mkWorld (spaceShip w) (cameraPivot w) (moveForward w) (moveBackward w)
              (rotateLeft w) b (currentPlanet w)
  end.

(** [String.prototype.toLowerCase] on the keys of a keyboard event: the
    letters [A] to [Z] become [a] to [z]. *)
Definition lowerAscii (c : ascii) : ascii :=
  let n := nat_of_ascii c in
  if ((65 <=? n) && (n <=? 90))%nat then ascii_of_nat (n + 32) else c.

Fixpoint toLowerCase (s : string) : string :=
  match s with
  | EmptyString => EmptyString
  | String c s' => String (lowerAscii c) (toLowerCase s')
  end.

(** The [switch] of both listeners: which direction a key names, if any. *)
Definition directionOfKey (key : string) : option Direction :=
  let k := toLowerCase key in
  if String.eqb k "w" then Some Forward
  else if String.eqb k "s" then Some Backward
  else if String.eqb k "a" then Some YawLeft
  else if String.eqb k "d" then Some YawRight
  else None.

Definition isSome {A : Type} (o : option A) : bool :=
  match o with Some _ => true | None => false end.

(** The [keydown] listener. *)
Definition keydown (key : string) (w : World) : World :=
  if spacial (currentPlanet w) && isSome (spaceShip w) then
    match directionOfKey key with
    | Some d => setFlag d true w
    | None => w
    end
  else w.

(** The [keyup] listener. *)
Definition keyup (key : string) (w : World) : World :=
  match directionOfKey key with
  | Some d => setFlag d false w
  | None => w
  end.

(** The constants of [moveAndRotateSpaceShip]. *)
Definition tiltAngle : R := 0.4.
Definition forwardTiltAngle : R := 0.2.
Definition tiltSpeed : R := 0.03.
Definition stepLength : R := 0.3.
Definition yawStep : R := 0.005.

(** The pitch branch: [spaceShip.rotation.x] is moved toward its target. *)
Definition tiltPitch (w : World) (ship : Object3D) : Object3D :=
  if moveBackward w then
    setRotationX ship (lerp (ex (rotation ship)) forwardTiltAngle tiltSpeed)
  else if moveForward w then
    setRotationX ship (lerp (ex (rotation ship)) (- forwardTiltAngle) tiltSpeed)
  else
    setRotationX ship (lerp (ex (rotation ship)) 0 tiltSpeed).

(** The yaw branch: the ship and the camera pivot turn together and
    [spaceShip.rotation.z] is moved toward its target. *)
Definition turnAndRoll (w : World) (ship pivot : Object3D) : Object3D * Object3D :=
  if rotateLeft w then
    let ship := setRotationY ship (ey (rotation ship) + yawStep) in
    let pivot := setRotationY pivot (ey (rotation pivot) + yawStep) in
    (setRotationZ ship (lerp (ez (rotation ship)) (- tiltAngle) tiltSpeed), pivot)
  else if rotateRight w then
    let ship := setRotationY ship (ey (rotation ship) - yawStep) in
    let pivot := setRotationY pivot (ey (rotation pivot) - yawStep) in
    (setRotationZ ship (lerp (ez (rotation ship)) tiltAngle tiltSpeed), pivot)
  else
    (setRotationZ ship (lerp (ez (rotation ship)) 0 tiltSpeed), pivot).

(** [moveAndRotateSpaceShip()], one frame of the ship. *)
Definition moveAndRotateSpaceShip (w : World) : World :=
  match spaceShip w with
  | None => w
  | Some ship =>
      let direction := getWorldDirection ship in
      let ship := setPosition ship
                    (add (position ship) (multiplyScalar direction stepLength)) in
      let ship := tiltPitch w ship in
      let '(ship, pivot) := turnAndRoll w ship (cameraPivot w) in
      let pivot := setPosition pivot (position ship) in
      mkWorld (Some ship) pivot (moveForward w) (moveBackward w)
              (rotateLeft w) (rotateRight w) (currentPlanet w)
  end.

(** [n] consecutive frames. *)
Fixpoint frames (n : nat) (w : World) : World :=
  match n with
  | O => w
  | S n' => frames n' (moveAndRotateSpaceShip w)
  end.

(** The events that reach the ship's state. *)
Inductive Event : Type :=
| KeyDown (key : string)
| KeyUp (key : string)
| Frame.

Definition handle (w : World) (e : Event) : World :=
  match e with
  | KeyDown k => keydown k w
  | KeyUp k => keyup k w
  | Frame => moveAndRotateSpaceShip w
  end.

Definition run (es : list Event) (w : World) : World := fold_left handle es w.

(** Readings of a pose. *)
Definition yaw (o : Object3D) : R := ey (rotation o).
Definition pitch (o : Object3D) : R := ex (rotation o).
Definition roll (o : Object3D) : R := ez (rotation o).

(** The tilt bounds of the ship (vacuous while there is no ship). *)
Definition tiltBounded (w : World) : Prop :=
  match spaceShip w with
  | Some ship =>
      Rabs (roll ship) <= tiltAngle /\ Rabs (pitch ship) <= forwardTiltAngle
  | None => True
  end.

(** The ship as the loader's callback leaves it, and a world around it. *)
Definition loadedShip : Object3D :=
  mkObject3D (mkVector3 20 0 (-500)) (mkEuler 0 0 0) (mkVector3 2 2 2).

Definition origin : Object3D :=
  mkObject3D (mkVector3 0 0 0) (mkEuler 0 0 0) (mkVector3 1 1 1).

Definition world0 (ship : option Object3D) (f b l r : bool) (c : Focus) : World :=
  mkWorld ship origin f b l r c.

(** ** The frame loop over the bodies *)

(** [v.sub(u)] and [v.distanceTo(u)] of three.js, used to state distances. *)
Definition sub (v u : Vector3) : Vector3 :=
  mkVector3 (vx v - vx u) (vy v - vy u) (vz v - vz u).

Definition distanceTo (v u : Vector3) : R := length (sub v u).

(** The part of [animate()] that writes the bodies:
    [planets.forEach(x => x.mesh.updatePosition(0.01))].  The rotation of the
    sun and the rendering do not touch them. *)
Definition animate (planets : list PlanetPhysics) : list PlanetPhysics :=
  map (updatePosition 0.01) planets.

(** [n] turns of the frame loop. *)
Fixpoint animateFrames (n : nat) (planets : list PlanetPhysics) : list PlanetPhysics :=
  match n with
  | O => planets
  | S n' => animateFrames n' (animate planets)
  end.

(** A body with another angular velocity or another radius. *)
Definition withRotationVelocity (w : R) (p : PlanetPhysics) : PlanetPhysics :=
  mkPlanetPhysics
    (mkPhysicsParams (radius (params p)) w (selfRotationVelocity (params p))
       (rotationCenter (params p)))
    (t p) (ownMesh p).

Definition withRadius (r : R) (p : PlanetPhysics) : PlanetPhysics :=
  mkPlanetPhysics
    (mkPhysicsParams r (rotationVelocity (params p)) (selfRotationVelocity (params p))
       (rotationCenter (params p)))
    (t p) (ownMesh p).

(** A body at another phase. *)
Definition atPhase (t0 : R) (p : PlanetPhysics) : PlanetPhysics :=
  mkPlanetPhysics (params p) t0 (ownMesh p).

(** ** The keys and the guard of the listeners *)

(** The keys that name a direction, with the direction of each. *)
Definition directionKeys : list (string * Direction) :=
  [ ("w", Forward); ("W", Forward); ("s", Backward); ("S", Backward);
    ("a", YawLeft); ("A", YawLeft); ("d", YawRight); ("D", YawRight) ]%string.

(** The guard of the [keydown] listener, [currentPlanet?.spacial && spaceShip]. *)
Definition shipControlled (w : World) : bool :=
  spacial (currentPlanet w) && isSome (spaceShip w).

(** ** The loader's callback and readings of a session *)

(** The [onLoad] callback of [loader.load]: the scene [m] of the model
    becomes [spaceShip], is put at (20, 0, -500) and scaled by 2; its
    rotation is left as the model has it. *)
Definition onLoad (m : Object3D) (w : World) : World :=
  let m := setPosition m (mkVector3 20 0 (-500)) in
  let m := mkObject3D (position m) (rotation m) (mkVector3 2 2 2) in
  mkWorld (Some m) (cameraPivot w) (moveForward w) (moveBackward w)
          (rotateLeft w) (rotateRight w) (currentPlanet w).

(** The number of frames among the events of a session. *)
Fixpoint frameCount (es : list Event) : nat :=
  match es with
  | [] => O
  | Frame :: es' => S (frameCount es')
  | _ :: es' => frameCount es'
  end.

(** The targets that the flags select in [moveAndRotateSpaceShip]: of the
    pitch, of the roll, and the yaw added per frame. *)
Definition pitchTarget (w : World) : R :=
  if moveBackward w then 0.2 else if moveForward w then - 0.2 else 0.

Definition rollTarget (w : World) : R :=
  if rotateLeft w then - 0.4 else if rotateRight w then 0.4 else 0.

Definition yawRate (w : World) : R :=
  if rotateLeft w then 0.005 else if rotateRight w then - 0.005 else 0.

(** The camera pivot sits on the ship (vacuous while there is no ship). *)
Definition attached (w : World) : Prop :=
  match spaceShip w with
  | Some ship => position (cameraPivot w) = position ship
  | None => True
  end.

(** The reflection in the plane [x = 0]: of a pose (x, yaw and roll change
    sign) and of a world (the poses are reflected, yawLeft and yawRight
    change places). *)
Definition mirrorPose (o : Object3D) : Object3D :=
  mkObject3D
    (mkVector3 (- vx (position o)) (vy (position o)) (vz (position o)))
    (mkEuler (ex (rotation o)) (- ey (rotation o)) (- ez (rotation o)))
    (scale o).

Definition mirrorWorld (w : World) : World :=
  mkWorld (option_map mirrorPose (spaceShip w)) (mirrorPose (cameraPivot w))
          (moveForward w) (moveBackward w) (rotateRight w) (rotateLeft w)
          (currentPlanet w).

(** ** The focus buttons of [renderButtonsList] *)

Section Buttons.

(** [resetCamera()] is called by every button and is not part of the
    listing; it is a parameter here.  [meshAt i] is [list[i].mesh], the
    identity of the physics object of the entry, if the entry has one. *)
Variable resetCamera : World -> World.
Variable meshAt : nat -> option nat.

Definition setCurrentPlanet (c : Focus) (w : World) : World :=
  mkWorld (spaceShip w) (cameraPivot w) (moveForward w) (moveBackward w)
          (rotateLeft w) (rotateRight w) c.

(** [list[i].mesh] as a value of [currentPlanet]; a missing mesh is
    [undefined], which every test of the listing treats as [null]. *)
Definition meshFocus (i : nat) : Focus :=
  match meshAt i with
  | Some b => FocusBody b
  | None => FocusNull
  end.

(** [currentPlanet == list[i].mesh]: [null] equals [undefined], two
    physics objects are equal when they are the same object, and the object
    of the ship view is no mesh of the list. *)
Definition sameFocus (c m : Focus) : bool :=
  match c, m with
  | FocusNull, FocusNull => true
  | FocusBody a, FocusBody b => Nat.eqb a b
  | _, _ => false
  end.

(** The button "Vista libre". *)
Definition resetButton_onclick (w : World) : World :=
  resetCamera (setCurrentPlanet FocusNull w).

(** The button "Nave espacial". *)
Definition spacialButton_onclick (w : World) : World :=
  resetCamera (setCurrentPlanet FocusSpacial w).

(** The button of the entry [i] of the list. *)
Definition button_onclick (i : nat) (w : World) : World :=
  if sameFocus (currentPlanet w) (meshFocus i) then
    resetCamera (setCurrentPlanet FocusNull w)
  else
    setCurrentPlanet (meshFocus i) (resetCamera w).

End Buttons.

(** What the theorems on the buttons assume of [resetCamera]: it writes
    neither the focus nor the ship. *)
Definition keepsFocusAndShip (resetCamera : World -> World) : Prop :=
  forall w : World,
    currentPlanet (resetCamera w) = currentPlanet w /\
    spaceShip (resetCamera w) = spaceShip w.

(** A [resetCamera] that puts the camera pivot back to the origin. *)
Definition pivotHome (w : World) : World :=
  mkWorld (spaceShip w) origin (moveForward w) (moveBackward w)
          (rotateLeft w) (rotateRight w) (currentPlanet w).

(** ** The constructor of [Planet] *)

Module PlanetModel.

(** A texture is named by the URL it is loaded from, a colour by its name. *)
Definition Texture : Type := string.
Definition Color : Type := string.

Inductive Side : Type := FrontSide | BackSide | DoubleSide.
Inductive NormalMapType : Type := TangentSpaceNormalMap | ObjectSpaceNormalMap.

(** The [options] argument; [None] is a missing ([undefined]) property. *)
Record Options : Type := mkOptions {
  bumpMapUrl : option string;
  bumpScale : option R;
  specularMapUrl : option string;
  specularColor : option Color;
  shininess : option R;
  refractionRatio : option R;
  cloudMapUrl : option string;
  cloudAlphaMapUrl : option string;
  cloudOpacity : option R
}.

(** The default [options = {}]. *)
Definition noOptions : Options :=
  mkOptions None None None None None None None None None.

Record SphereGeometry : Type := mkSphereGeometry {
  sphereRadius : R;
  widthSegments : nat;
  heightSegments : nat
}.

(** The parameters given to the [MeshPhongMaterial] of the planet. *)
Record PlanetMaterial : Type := mkPlanetMaterial {
  map : Texture;
  bumpMap : option Texture;
  materialBumpScale : R;
  specularMap : option Texture;
  specular : Color;
  materialShininess : R;
  materialRefractionRatio : R;
  normalMapType : NormalMapType;
  side : Side;
  transparent : bool
}.

(** The parameters given to the [MeshPhongMaterial] of the clouds. *)
Record CloudMaterial : Type := mkCloudMaterial {
  cloudMap : Texture;
  alphaMap : Texture;
  cloudTransparent : bool;
  opacity : R;
  cloudSide : Side
}.

Record Planet : Type := mkPlanet {
  planetGeometry : SphereGeometry;
  planetMaterial : PlanetMaterial;
  cloudsMesh : option (SphereGeometry * CloudMaterial)
}.

(** The truth value of an optional string: a missing and an empty string
    are false. *)
Definition truthy (u : option string) : bool :=
  match u with
  | Some (String _ _) => true
  | _ => false
  end.

(** [u ? new TextureLoader().load(u) : undefined] *)
Definition loadIfGiven (u : option string) : option Texture :=
  if truthy u then u else None.

(** [x ?? d] *)
Definition orDefault {A : Type} (x : option A) (d : A) : A :=
  match x with
  | Some v => v
  | None => d
  end.

(** [new Planet(radius, mapUrl, options)]. *)
Definition newPlanet (radius : R) (mapUrl : string) (options : Options) : Planet :=
  let geometry := mkSphereGeometry radius 20 20 in
  let material :=
    mkPlanetMaterial mapUrl
      (loadIfGiven (bumpMapUrl options))
      (orDefault (bumpScale options) 1)
      (loadIfGiven (specularMapUrl options))
      (orDefault (specularColor options) "grey"%string)
      (orDefault (shininess options) 30)
      (orDefault (refractionRatio options) 1)
      TangentSpaceNormalMap DoubleSide true in
  let clouds :=
    if truthy (cloudMapUrl options) && truthy (cloudAlphaMapUrl options) then
      match cloudMapUrl options, cloudAlphaMapUrl options with
      | Some cm, Some ca =>
          Some (mkSphereGeometry (radius * 1.05) 20 20,
                mkCloudMaterial cm ca true (orDefault (cloudOpacity options) 0.1)
                                DoubleSide)
      | _, _ => None
      end
    else None in
  mkPlanet geometry material clouds.

(** The options without the three of the clouds. *)
Definition withoutClouds (o : Options) : Options :=
  mkOptions (bumpMapUrl o) (bumpScale o) (specularMapUrl o) (specularColor o)
            (shininess o) (refractionRatio o) None None None.

(** [new Earth()] and [new Mars()]. *)
Definition Earth : Planet :=
  newPlanet 5 "http://127.0.0.1:3000/earth.jpg"
    (mkOptions (Some "http://127.0.0.1:3000/earth_bump.jpg"%string) (Some 0.1)
               (Some "http://127.0.0.1:3000/earth_specular.jpg"%string)
               (Some "blue"%string) (Some 50) None
               (Some "http://127.0.0.1:3000/earth_clouds.jpg"%string)
               (Some "http://127.0.0.1:3000/earth_clouds_alpha.jpg"%string)
               (Some 0.3)).

Definition Mars : Planet := newPlanet 3.5 "http://127.0.0.1:3000/mars.jpg" noOptions.

End PlanetModel.

(** ** The two-line listing of the frame update, and the heading *)

(** What a call leaves: the new state, or the [TypeError] of a property
    read on [null]. *)
Inductive Outcome : Type :=
| Done (w : World)
| TypeError.

Definition withShip (ship : Object3D) (w : World) : World :=
  mkWorld (Some ship) (cameraPivot w) (moveForward w) (moveBackward w)
          (rotateLeft w) (rotateRight w) (currentPlanet w).

(** The second listing of [moveAndRotateSpaceShip], the two lines of the
    shorter document:
    [if (moveForward) spaceShip.position.add(new THREE.Vector3(0, 0, 0.3));]
    [if (rotateLeft) spaceShip.rotation.y += 0.005;]
    It has no test of [spaceShip]. *)
Definition moveAndRotateSpaceShipBrief (w : World) : Outcome :=
  let moved :=
    if moveForward w then
      match spaceShip w with
      | Some ship =>
          Done (withShip (setPosition ship (add (position ship) (mkVector3 0 0 0.3))) w)
      | None => TypeError
      end
    else Done w in
  match moved with
  | TypeError => TypeError
  | Done w1 =>
      if rotateLeft w1 then
        match spaceShip w1 with
        | Some ship => Done (withShip (setRotationY ship (ey (rotation ship) + 0.005)) w1)
        | None => TypeError
        end
      else Done w1
  end.

(** [a.dot(b)] and [a.cross(b)] of three.js, and the up axis of the scene. *)
Definition dot (a b : Vector3) : R := vx a * vx b + vy a * vy b + vz a * vz b.

Definition cross (a b : Vector3) : Vector3 :=
  mkVector3 (vy a * vz b - vz a * vy b)
            (vz a * vx b - vx a * vz b)
            (vx a * vy b - vy a * vx b).

Definition up : Vector3 := mkVector3 0 1 0.

(** The yaw of the ship in the convention in which a turn to the left
    lowers it: the angle of the course, counted clockwise seen from above.
    It is the opposite of [rotation.y], since a growing [rotation.y] turns
    the forward direction toward the pilot's left ([up] cross forward). *)
Definition heading (o : Object3D) : R := - ey (rotation o).

(** ** Theorems: orbital motion *)

Lemma updatePosition_position (dt : R) (p : PlanetPhysics) :
  position (ownMesh (updatePosition dt p)) =
  mkVector3
    (radius (params p) * sin (t p * rotationVelocity (params p))
     + vx (rotationCenter (params p)))
    0
    (radius (params p) * cos (t p * rotationVelocity (params p))
     + vz (rotationCenter (params p))).
Proof. reflexivity. Qed.

(** [updatePosition] leaves the phase and the parameters alone. *)
Lemma updatePosition_t (dt : R) (p : PlanetPhysics) :
  t (updatePosition dt p) = t p /\ params (updatePosition dt p) = params p.
Proof. split; reflexivity. Qed.

Lemma computedPosition_eq (dt : R) (p : PlanetPhysics) :
  position (ownMesh (updatePosition dt p)) = computedPosition p.
Proof. reflexivity. Qed.

(** C1, as amended: for every orbital state (radius [r], centre [c], angular
    velocity [w], phase [t]) the update places the body at
    [x = r*sin(t*w) + c.x], [z = r*cos(t*w) + c.z] and [y = 0]: the orbit is
    the circle of radius [r] around the centre's x and z in the plane
    [y = 0], whatever the centre's y is, and no inclination enters. *)
Theorem updatePosition_places_body (dt : R) (p : PlanetPhysics) :
  let r := radius (params p) in
  let w := rotationVelocity (params p) in
  let c := rotationCenter (params p) in
  let q := position (ownMesh (updatePosition dt p)) in
  vx q = r * sin (t p * w) + vx c /\
  vz q = r * cos (t p * w) + vz c /\
  vy q = 0 /\
  (vx q - vx c) * (vx q - vx c) + (vz q - vz c) * (vz q - vz c) = r * r.
Proof.
  cbv zeta. rewrite updatePosition_position. cbn [vx vy vz].
  repeat split.
  pose proof (sin2_cos2 (t p * rotationVelocity (params p))) as H.
  unfold Rsqr in H.
  replace (radius (params p) * sin (t p * rotationVelocity (params p))
           + vx (rotationCenter (params p)) - vx (rotationCenter (params p)))
    with (radius (params p) * sin (t p * rotationVelocity (params p))) by ring.
  replace (radius (params p) * cos (t p * rotationVelocity (params p))
           + vz (rotationCenter (params p)) - vz (rotationCenter (params p)))
    with (radius (params p) * cos (t p * rotationVelocity (params p))) by ring.
  transitivity
    (radius (params p) * radius (params p)
     * (sin (t p * rotationVelocity (params p)) * sin (t p * rotationVelocity (params p))
        + cos (t p * rotationVelocity (params p)) * cos (t p * rotationVelocity (params p)))).
  - ring.
  - rewrite H. ring.
Qed.

(** C1, as stated, fails: with radius 1 and centre (0,1,0) the body is put
    at height 0, not at the centre's height 1. *)
Lemma updatePosition_ignores_center_y :
  let p := body 1 1 (mkVector3 0 1 0) 0 in
  0 < radius (params p) /\
  vy (position (ownMesh (updatePosition 0 p))) <> vy (rotationCenter (params p)).
Proof.
  cbn. split; lra.
Qed.

(** The phase after a sequence of advances. *)
Lemma advancePhase_fold (dts : list R) (p : PlanetPhysics) :
  t (fold_left (fun q dt => advancePhase dt q) dts p) = t p + fold_right Rplus 0 dts /\
  params (fold_left (fun q dt => advancePhase dt q) dts p) = params p.
Proof.
  revert p. induction dts as [| dt dts IH]; intros p; cbn [fold_left fold_right].
  - split; [ring | reflexivity].
  - destruct (IH (advancePhase dt p)) as [Ht Hp]. rewrite Ht, Hp. cbn [advancePhase t params].
    split; [ring | reflexivity].
Qed.

(** C8: for radius [R > 0] and a nonzero angular velocity, advancing the
    phase by any sequence of [dt] values that sums to one full period
    [2π/angularVelocity] brings the computed position back to the starting
    position (exactly, over the reals). *)
Theorem orbit_periodic (p : PlanetPhysics) (dts : list R) (dt0 dt1 : R) :
  0 < radius (params p) ->
  rotationVelocity (params p) <> 0 ->
  fold_right Rplus 0 dts = 2 * PI / rotationVelocity (params p) ->
  position (ownMesh (updatePosition dt1 (fold_left (fun q dt => advancePhase dt q) dts p))) =
  position (ownMesh (updatePosition dt0 p)).
Proof.
  intros _ Hw Hsum.
  rewrite !updatePosition_position.
  destruct (advancePhase_fold dts p) as [Ht Hp]. rewrite Ht, Hp, Hsum.
  replace ((t p + 2 * PI / rotationVelocity (params p)) * rotationVelocity (params p))
    with (t p * rotationVelocity (params p) + 2 * PI) by (field; exact Hw).
  rewrite sin_plus, cos_plus, sin_2PI, cos_2PI.
  f_equal; ring.
Qed.

Lemma orbit_periodic_witness :
  position (ownMesh (updatePosition 0
     (fold_left (fun q dt => advancePhase dt q) [PI; PI] (body 5 1 (mkVector3 0 0 0) 0)))) =
  position (ownMesh (updatePosition 0 (body 5 1 (mkVector3 0 0 0) 0))).
Proof.
  apply (orbit_periodic (body 5 1 (mkVector3 0 0 0) 0) [PI; PI] 0 0).
  - cbn. lra.
  - cbn. lra.
  - cbn. field.
Defined.

(** The scenario of C9: radius 5, angular velocity 1, centre at the origin,
    phase 0, advanced four times by a quarter period. *)
Lemma quarter_turns :
  positionsAlong [PI / 2; PI / 2; PI / 2; PI / 2] (body 5 1 (mkVector3 0 0 0) 0) =
  [ mkVector3 (5 * sin 0 + 0) 0 (5 * cos 0 + 0);
    mkVector3 (5 * sin (PI / 2) + 0) 0 (5 * cos (PI / 2) + 0);
    mkVector3 (5 * sin PI + 0) 0 (5 * cos PI + 0);
    mkVector3 (5 * sin (3 * (PI / 2)) + 0) 0 (5 * cos (3 * (PI / 2)) + 0);
    mkVector3 (5 * sin (2 * PI) + 0) 0 (5 * cos (2 * PI) + 0) ].
Proof.
  cbn.
  replace (0 * 1) with 0 by ring.
  replace ((0 + PI / 2) * 1) with (PI / 2) by field.
  replace ((0 + PI / 2 + PI / 2) * 1) with PI by field.
  replace ((0 + PI / 2 + PI / 2 + PI / 2) * 1) with (3 * (PI / 2)) by field.
  replace ((0 + PI / 2 + PI / 2 + PI / 2 + PI / 2) * 1) with (2 * PI) by field.
  reflexivity.
Qed.

(** C9, as amended: with radius 5, angular velocity 1 and centre (0,0,0),
    from [t = 0] and advancing by [π/2] four times, the successively
    computed positions are (0,0,5), (5,0,0), (0,0,-5), (-5,0,0), (0,0,5). *)
Theorem quarter_turn_positions :
  positionsAlong [PI / 2; PI / 2; PI / 2; PI / 2] (body 5 1 (mkVector3 0 0 0) 0) =
  [ mkVector3 0 0 5; mkVector3 5 0 0; mkVector3 0 0 (-5);
    mkVector3 (-5) 0 0; mkVector3 0 0 5 ].
Proof.
  rewrite quarter_turns.
  rewrite sin_0, cos_0, sin_PI2, cos_PI2, sin_PI, cos_PI,
    sin_3PI2, cos_3PI2, sin_2PI, cos_2PI.
  repeat (f_equal; try ring).
Qed.

(** C9, as stated, fails: the first computed position, at [t = 0], is
    (0,0,5), and so is the position computed after the four advances; the
    sequence (5,0,0), (0,0,-5), (-5,0,0), (0,0,5), (5,0,0) is not
    approximated, not even within a tolerance of 1 per coordinate, and its
    last entry (5,0,0) is not where the body is after the fourth advance. *)
Lemma quarter_turn_positions_not_as_listed :
  ~ Forall2 (closeTo 1)
      (positionsAlong [PI / 2; PI / 2; PI / 2; PI / 2] (body 5 1 (mkVector3 0 0 0) 0))
      [ mkVector3 5 0 0; mkVector3 0 0 (-5); mkVector3 (-5) 0 0;
        mkVector3 0 0 5; mkVector3 5 0 0 ] /\
  ~ closeTo 1
      (computedPosition
         (fold_left (fun q dt => advancePhase dt q) [PI / 2; PI / 2; PI / 2; PI / 2]
            (body 5 1 (mkVector3 0 0 0) 0)))
      (mkVector3 5 0 0).
Proof.
  split.
  - rewrite quarter_turn_positions. intros H.
    inversion H as [| u v us vs Hclose _]; subst.
    destruct Hclose as [Hx _]. cbn in Hx.
    unfold Rabs in Hx. destruct (Rcase_abs (0 - 5)); lra.
  - intros [Hx _]. revert Hx.
    unfold computedPosition. rewrite updatePosition_position.
    destruct (advancePhase_fold [PI / 2; PI / 2; PI / 2; PI / 2]
                (body 5 1 (mkVector3 0 0 0) 0)) as [Ht Hp].
    rewrite Ht, Hp. cbn.
    replace ((0 + (PI / 2 + (PI / 2 + (PI / 2 + (PI / 2 + 0))))) * 1)
      with (2 * PI) by field.
    rewrite sin_2PI. intros Hx.
    unfold Rabs in Hx. destruct (Rcase_abs (5 * 0 + 0 - 5)); lra.
Qed.

(** ** Lemmas: vectors and the forward direction *)

Lemma lengthSq_nonneg (v : Vector3) : 0 <= lengthSq v.
Proof.
  unfold lengthSq.
  pose proof (Rle_0_sqr (vx v)). pose proof (Rle_0_sqr (vy v)).
  pose proof (Rle_0_sqr (vz v)). unfold Rsqr in *. lra.
Qed.

Lemma length_multiplyScalar (v : Vector3) (s : R) :
  length (multiplyScalar v s) = Rabs s * length v.
Proof.
  unfold length.
  replace (lengthSq (multiplyScalar v s)) with (Rsqr s * lengthSq v)
    by (unfold lengthSq, multiplyScalar, Rsqr; cbn; ring).
  rewrite sqrt_mult_alt by apply Rle_0_sqr.
  rewrite sqrt_Rsqr_abs. reflexivity.
Qed.

Lemma length_zAxis (e : Euler) : length (zAxis e) = 1.
Proof.
  unfold length.
  replace (lengthSq (zAxis e)) with 1; [apply sqrt_1 |].
  unfold lengthSq, zAxis; cbn.
  pose proof (sin2_cos2 (ex e)) as Hx. pose proof (sin2_cos2 (ey e)) as Hy.
  unfold Rsqr in Hx, Hy.
  transitivity
    (sin (ey e) * sin (ey e)
     + cos (ey e) * cos (ey e) * (sin (ex e) * sin (ex e) + cos (ex e) * cos (ex e))).
  - rewrite Hx. lra.
  - ring.
Qed.

Lemma length_normalize (v : Vector3) : length v <> 0 -> length (normalize v) = 1.
Proof.
  intros Hv. unfold normalize.
  destruct (Req_dec_T (length v) 0) as [H0 | _]; [contradiction |].
  rewrite length_multiplyScalar.
  assert (0 < length v) as Hpos.
  { pose proof (sqrt_pos (lengthSq v)). unfold length in *. lra. }
  rewrite Rabs_right.
  - field. exact Hv.
  - apply Rle_ge. left. apply Rinv_0_lt_compat. exact Hpos.
Qed.

(** The forward direction of an object with a nonzero z scale is a unit
    vector. *)
Lemma getWorldDirection_unit (o : Object3D) :
  vz (scale o) <> 0 -> length (getWorldDirection o) = 1.
Proof.
  intros Hs. unfold getWorldDirection. apply length_normalize.
  rewrite length_multiplyScalar, length_zAxis, Rmult_1_r.
  apply Rabs_no_R0. exact Hs.
Qed.

Lemma step_has_stepLength (o : Object3D) :
  vz (scale o) <> 0 ->
  length (multiplyScalar (getWorldDirection o) stepLength) = stepLength.
Proof.
  intros Hs. rewrite length_multiplyScalar, getWorldDirection_unit by exact Hs.
  unfold stepLength. rewrite Rabs_right; lra.
Qed.

(** The forward direction of the ship as the loader leaves it is the z axis. *)
Lemma loadedShip_direction : getWorldDirection loadedShip = mkVector3 0 0 1.
Proof.
  unfold getWorldDirection, normalize.
  assert (length (multiplyScalar (zAxis (rotation loadedShip)) (vz (scale loadedShip))) = 2)
    as Hl.
  { rewrite length_multiplyScalar, length_zAxis. cbn. rewrite Rabs_right; lra. }
  rewrite Hl. destruct (Req_dec_T 2 0) as [H0 | _]; [lra |].
  unfold multiplyScalar, zAxis; cbn. rewrite sin_0, cos_0. f_equal; field.
Qed.

(** ** Theorems: the ship's frame update *)

(** Splits a world with a loaded ship into the cases of its four flags. *)
Ltac frame_cases w H :=
  destruct w as [s pv f b l r c]; cbn in H; subst s;
  unfold moveAndRotateSpaceShip, tiltPitch, turnAndRoll, setFlag;
  cbn [spaceShip cameraPivot moveForward moveBackward rotateLeft rotateRight currentPlanet];
  destruct f, b, l, r;
  cbn [spaceShip cameraPivot fst snd].

(** The full listing: with the ship loaded, a frame moves the ship along
    its current world forward direction by the fixed step 0.3, whatever the
    input flags; the forward and backward flags only choose the target of
    the pitch tilt: setting them differently changes neither the new
    position, yaw, roll or scale of the ship nor the camera pivot. *)
Lemma frame_translates_ship (w : World) (ship : Object3D) :
  spaceShip w = Some ship ->
  exists ship',
    spaceShip (moveAndRotateSpaceShip w) = Some ship' /\
    position ship' =
      add (position ship) (multiplyScalar (getWorldDirection ship) 0.3) /\
    (vz (scale ship) <> 0 ->
     length (multiplyScalar (getWorldDirection ship) 0.3) = 0.3) /\
    forall f b : bool,
      let w' := setFlag Forward f (setFlag Backward b w) in
      exists ship'',
        spaceShip (moveAndRotateSpaceShip w') = Some ship'' /\
        position ship'' = position ship' /\
        yaw ship'' = yaw ship' /\
        roll ship'' = roll ship' /\
        scale ship'' = scale ship' /\
        pitch ship'' =
          lerp (pitch ship) (if b then 0.2 else if f then - 0.2 else 0) 0.03 /\
        cameraPivot (moveAndRotateSpaceShip w') = cameraPivot (moveAndRotateSpaceShip w).
Proof.
  intros H.
  frame_cases w H;
    (eexists; split; [reflexivity |]; split; [reflexivity |];
     split; [exact (step_has_stepLength ship) |];
     intros f' b'; destruct f', b';
     (cbn; eexists; split; [reflexivity |]; repeat split;
      unfold pitch, lerp, forwardTiltAngle, tiltSpeed; cbn; lra)).
Qed.

(** The two-line listing: with the ship loaded it never fails, moves the
    ship only when [moveForward] is set, then by the fixed vector
    (0, 0, 0.3), turns it by 0.005 only when [rotateLeft] is set, and
    touches nothing else; the backward flag changes nothing. *)
Lemma brief_listing_moves (w : World) (ship : Object3D) :
  spaceShip w = Some ship ->
  exists ship',
    moveAndRotateSpaceShipBrief w = Done (withShip ship' w) /\
    position ship' =
      (if moveForward w then add (position ship) (mkVector3 0 0 0.3)
       else position ship) /\
    yaw ship' = (if rotateLeft w then yaw ship + 0.005 else yaw ship) /\
    pitch ship' = pitch ship /\ roll ship' = roll ship /\ scale ship' = scale ship /\
    forall b : bool,
      moveAndRotateSpaceShipBrief (setFlag Backward b w)
      = Done (setFlag Backward b (withShip ship' w)).
Proof.
  intros H. destruct w as [s pv f b l r c]. cbn in H. subst s.
  unfold moveAndRotateSpaceShipBrief, withShip, setFlag.
  cbn [spaceShip cameraPivot moveForward moveBackward rotateLeft rotateRight currentPlanet].
  destruct f, l;
    cbn [spaceShip cameraPivot moveForward moveBackward rotateLeft rotateRight
         currentPlanet];
    (eexists; split; [reflexivity |]; repeat split);
    destruct ship as [p [x y z] sc]; reflexivity.
Qed.

(** C2, as amended: on every frame with the ship loaded, the full listing
    of [moveAndRotateSpaceShip] moves the ship along its current world
    forward direction by the fixed step 0.3, whatever the input flags, and
    there the forward and backward flags only choose the target of the
    pitch tilt.  The two-line listing of the same function moves the ship
    only when [moveForward] is set, then by the fixed vector (0, 0, 0.3)
    whatever the ship's direction is, and is not changed by the backward
    flag. *)
Theorem ship_translation_by_listing (w : World) (ship : Object3D) :
  spaceShip w = Some ship ->
  (exists ship',
     spaceShip (moveAndRotateSpaceShip w) = Some ship' /\
     position ship' =
       add (position ship) (multiplyScalar (getWorldDirection ship) 0.3) /\
     (vz (scale ship) <> 0 ->
      length (multiplyScalar (getWorldDirection ship) 0.3) = 0.3) /\
     forall f b : bool,
       let w' := setFlag Forward f (setFlag Backward b w) in
       exists ship'',
         spaceShip (moveAndRotateSpaceShip w') = Some ship'' /\
         position ship'' = position ship' /\
         yaw ship'' = yaw ship' /\
         roll ship'' = roll ship' /\
         scale ship'' = scale ship' /\
         pitch ship'' =
           lerp (pitch ship) (if b then 0.2 else if f then - 0.2 else 0) 0.03 /\
         cameraPivot (moveAndRotateSpaceShip w') = cameraPivot (moveAndRotateSpaceShip w)) /\
  (exists ship',
     moveAndRotateSpaceShipBrief w = Done (withShip ship' w) /\
     position ship' =
       (if moveForward w then add (position ship) (mkVector3 0 0 0.3)
        else position ship) /\
     yaw ship' = (if rotateLeft w then yaw ship + 0.005 else yaw ship) /\
     pitch ship' = pitch ship /\ roll ship' = roll ship /\ scale ship' = scale ship /\
     forall b : bool,
       moveAndRotateSpaceShipBrief (setFlag Backward b w)
       = Done (setFlag Backward b (withShip ship' w))).
Proof.
  intros H. split.
  - exact (frame_translates_ship w ship H).
  - exact (brief_listing_moves w ship H).
Qed.

Lemma ship_translation_by_listing_witness :
  (exists ship',
     spaceShip (moveAndRotateSpaceShip
                  (world0 (Some loadedShip) false false false false FocusSpacial))
       = Some ship' /\
     position ship' = mkVector3 20 0 (-500 + 0.3)) /\
  (exists ship',
     moveAndRotateSpaceShipBrief
       (world0 (Some loadedShip) false false false false FocusSpacial)
     = Done (withShip ship'
               (world0 (Some loadedShip) false false false false FocusSpacial)) /\
     position ship' = mkVector3 20 0 (-500)).
Proof.
  destruct (ship_translation_by_listing
              (world0 (Some loadedShip) false false false false FocusSpacial)
              loadedShip eq_refl)
    as [[ship' [Hs [Hp _]]] [ship2 [Hb [Hp2 _]]]].
  split.
  - exists ship'. split; [exact Hs |].
    rewrite Hp, loadedShip_direction.
    unfold add, multiplyScalar; cbn [vx vy vz position loadedShip]. f_equal; ring.
  - exists ship2. split; [exact Hb | exact Hp2].
Defined.

(** C2, as stated, fails on the two-line listing: with the ship loaded and
    no flag set the call leaves the whole state, and so the ship's
    position, as it was, while a step of 0.3 along the forward direction
    would have moved the ship. *)
Lemma brief_listing_keeps_ship_still :
  moveAndRotateSpaceShipBrief
    (world0 (Some loadedShip) false false false false FocusSpacial)
  = Done (world0 (Some loadedShip) false false false false FocusSpacial) /\
  add (position loadedShip) (multiplyScalar (getWorldDirection loadedShip) 0.3)
  <> position loadedShip.
Proof.
  split; [reflexivity |].
  rewrite loadedShip_direction.
  unfold add, multiplyScalar; cbn [vx vy vz position loadedShip].
  intros H. injection H as _ _ Hz. lra.
Qed.

(** C3: while the ship model is not loaded ([spaceShip] is [null]) the frame
    update changes nothing, whatever the flags are: the world, and with it
    the camera pivot, is returned as it was; the update is a total function,
    no step of it can fail. *)
Theorem frame_without_ship_is_noop
    (pivot : Object3D) (f b l r : bool) (c : Focus) :
  moveAndRotateSpaceShip (mkWorld None pivot f b l r c) = mkWorld None pivot f b l r c.
Proof. reflexivity. Qed.

(** C4: on every frame with the ship loaded the camera pivot is put at the
    ship's new position, and the pivot's yaw changes by the same increment
    as the ship's yaw, so that the yaw offset between pivot and ship is
    kept. *)
Theorem camera_follows_ship (w : World) (ship : Object3D) :
  spaceShip w = Some ship ->
  exists ship',
    spaceShip (moveAndRotateSpaceShip w) = Some ship' /\
    position (cameraPivot (moveAndRotateSpaceShip w)) = position ship' /\
    yaw (cameraPivot (moveAndRotateSpaceShip w)) - yaw (cameraPivot w)
      = yaw ship' - yaw ship /\
    yaw (cameraPivot (moveAndRotateSpaceShip w)) - yaw ship'
      = yaw (cameraPivot w) - yaw ship.
Proof.
  intros H.
  frame_cases w H;
    (eexists; split; [reflexivity |]; split; [reflexivity |];
     unfold yaw; cbn; split; ring).
Qed.

Lemma camera_follows_ship_witness :
  exists ship',
    spaceShip (moveAndRotateSpaceShip
                 (world0 (Some loadedShip) false false true false FocusSpacial))
      = Some ship' /\
    position (cameraPivot (moveAndRotateSpaceShip
                 (world0 (Some loadedShip) false false true false FocusSpacial)))
      = position ship' /\
    yaw (cameraPivot (moveAndRotateSpaceShip
                 (world0 (Some loadedShip) false false true false FocusSpacial)))
      - yaw origin = yaw ship' - yaw loadedShip.
Proof.
  destruct (camera_follows_ship
              (world0 (Some loadedShip) false false true false FocusSpacial)
              loadedShip eq_refl)
    as [ship' [Hs [Hp [Hy _]]]].
  exists ship'. repeat split; assumption.
Defined.

(** C5: with opposite flags both set, the first test of each [if] chain
    wins.  With backward and forward set, the pitch goes toward backward's
    target [0.2], and the frame is the one of backward alone; with yawLeft
    and yawRight set, the ship and the pivot turn by yawLeft's [+0.005],
    the roll goes toward yawLeft's target [-0.4], and the frame is the one
    of yawLeft alone. *)
Theorem first_match_wins (w : World) (ship : Object3D) :
  spaceShip w = Some ship ->
  (moveBackward w = true -> moveForward w = true ->
   exists ship',
     spaceShip (moveAndRotateSpaceShip w) = Some ship' /\
     pitch ship' = lerp (pitch ship) 0.2 0.03 /\
     spaceShip (moveAndRotateSpaceShip (setFlag Forward false w)) = Some ship' /\
     cameraPivot (moveAndRotateSpaceShip (setFlag Forward false w))
       = cameraPivot (moveAndRotateSpaceShip w)) /\
  (rotateLeft w = true -> rotateRight w = true ->
   exists ship',
     spaceShip (moveAndRotateSpaceShip w) = Some ship' /\
     yaw ship' = yaw ship + 0.005 /\
     roll ship' = lerp (roll ship) (- 0.4) 0.03 /\
     yaw (cameraPivot (moveAndRotateSpaceShip w)) = yaw (cameraPivot w) + 0.005 /\
     spaceShip (moveAndRotateSpaceShip (setFlag YawRight false w)) = Some ship' /\
     cameraPivot (moveAndRotateSpaceShip (setFlag YawRight false w))
       = cameraPivot (moveAndRotateSpaceShip w)).
Proof.
  intros H. destruct w as [s pv f b l r c]. cbn in H. subst s.
  cbn [moveBackward moveForward rotateLeft rotateRight].
  split; intros H1 H2; subst;
    unfold moveAndRotateSpaceShip, tiltPitch, turnAndRoll, setFlag;
    cbn [spaceShip cameraPivot moveForward moveBackward rotateLeft rotateRight
         currentPlanet].
  - destruct l, r; (eexists; repeat split).
  - destruct f, b;
      (eexists; split; [reflexivity |];
       unfold yaw, roll, lerp, tiltAngle, tiltSpeed, yawStep; cbn;
       repeat split; lra).
Qed.

Lemma first_match_wins_witness :
  (exists ship',
     spaceShip (moveAndRotateSpaceShip
                  (world0 (Some loadedShip) true true true true FocusSpacial))
       = Some ship' /\
     pitch ship' = lerp 0 0.2 0.03) /\
  (exists ship',
     spaceShip (moveAndRotateSpaceShip
                  (world0 (Some loadedShip) true true true true FocusSpacial))
       = Some ship' /\
     yaw ship' = 0 + 0.005 /\
     roll ship' = lerp 0 (- 0.4) 0.03).
Proof.
  destruct (first_match_wins
              (world0 (Some loadedShip) true true true true FocusSpacial)
              loadedShip eq_refl)
    as [Hpitch Hyaw].
  split.
  - destruct (Hpitch eq_refl eq_refl) as [ship' [Hs [Hp _]]].
    exists ship'. split; assumption.
  - destruct (Hyaw eq_refl eq_refl) as [ship' [Hs [Hy [Hr _]]]].
    exists ship'. repeat split; assumption.
Defined.

(** ** Theorems: tilt bounds *)

(** An interpolation with a factor in [0, 1] stays between bounds that hold
    its two ends. *)
Lemma lerp_between (a b x y k : R) :
  0 <= k <= 1 -> a <= x <= b -> a <= y <= b -> a <= lerp x y k <= b.
Proof.
  intros Hk Hx Hy. unfold lerp. split; nra.
Qed.

Lemma Rabs_bound (x b : R) : Rabs x <= b <-> - b <= x <= b.
Proof.
  unfold Rabs. destruct (Rcase_abs x); split; intros; lra.
Qed.

Lemma lerp_keeps_bound (x target bound : R) :
  Rabs x <= bound -> Rabs target <= bound ->
  Rabs (lerp x target tiltSpeed) <= bound.
Proof.
  rewrite !Rabs_bound. intros Hx Ht.
  apply lerp_between; try assumption. unfold tiltSpeed. lra.
Qed.

Lemma frame_keeps_tilt (w : World) : tiltBounded w -> tiltBounded (moveAndRotateSpaceShip w).
Proof.
  destruct w as [[ship |] pv f b l r c]; [| trivial].
  unfold tiltBounded, moveAndRotateSpaceShip, tiltPitch, turnAndRoll.
  cbn [spaceShip cameraPivot moveForward moveBackward rotateLeft rotateRight].
  intros [Hroll Hpitch].
  assert (Rabs tiltAngle <= tiltAngle /\ Rabs (- tiltAngle) <= tiltAngle
          /\ Rabs 0 <= tiltAngle) as [Ht1 [Ht2 Ht3]]
    by (rewrite !Rabs_bound; unfold tiltAngle; lra).
  assert (Rabs forwardTiltAngle <= forwardTiltAngle
          /\ Rabs (- forwardTiltAngle) <= forwardTiltAngle
          /\ Rabs 0 <= forwardTiltAngle) as [Hf1 [Hf2 Hf3]]
    by (rewrite !Rabs_bound; unfold forwardTiltAngle; lra).
  destruct f, b, l, r; cbn; unfold roll, pitch in *; cbn;
    (split; apply lerp_keeps_bound; assumption).
Qed.

(** C6: every call of the frame update keeps the tilt bounds: if
    [|roll| <= 0.4] and [|pitch| <= 0.2] hold before it they hold after it,
    for all flags; both angles are interpolated with factor 0.03 toward a
    target inside the bounds. *)
Theorem tilt_bounds_preserved (w : World) :
  (match spaceShip w with
   | Some ship => Rabs (roll ship) <= 0.4 /\ Rabs (pitch ship) <= 0.2
   | None => True
   end) ->
  match spaceShip (moveAndRotateSpaceShip w) with
  | Some ship' => Rabs (roll ship') <= 0.4 /\ Rabs (pitch ship') <= 0.2
  | None => True
  end.
Proof. exact (frame_keeps_tilt w). Qed.

Lemma tilt_bounds_preserved_witness :
  match spaceShip (moveAndRotateSpaceShip
                     (world0 (Some loadedShip) true false false true FocusSpacial)) with
  | Some ship' => Rabs (roll ship') <= 0.4 /\ Rabs (pitch ship') <= 0.2
  | None => True
  end.
Proof.
  apply (tilt_bounds_preserved
           (world0 (Some loadedShip) true false false true FocusSpacial)).
  cbn. rewrite Rabs_R0. split; lra.
Defined.

(** ** Theorems: holding yawLeft *)

(** One frame with [rotateLeft] set. *)
Lemma frame_rotateLeft (w : World) (ship : Object3D) :
  spaceShip w = Some ship -> rotateLeft w = true ->
  exists ship',
    spaceShip (moveAndRotateSpaceShip w) = Some ship' /\
    rotateLeft (moveAndRotateSpaceShip w) = true /\
    yaw ship' = yaw ship + yawStep /\
    roll ship' + tiltAngle = (1 - tiltSpeed) * (roll ship + tiltAngle).
Proof.
  intros H Hl. destruct w as [s pv f b l r c]. cbn in H, Hl. subst s l.
  unfold moveAndRotateSpaceShip, tiltPitch, turnAndRoll.
  cbn [spaceShip cameraPivot moveForward moveBackward rotateLeft rotateRight].
  destruct f, b;
    (eexists; split; [reflexivity |]; split; [reflexivity |];
     unfold yaw, roll, lerp; cbn; split; ring).
Qed.

(** [n] frames with [rotateLeft] set: the closed form of yaw and roll. *)
Lemma frames_rotateLeft (n : nat) :
  forall (w : World) (ship : Object3D),
    spaceShip w = Some ship -> rotateLeft w = true ->
    exists ship',
      spaceShip (frames n w) = Some ship' /\
      yaw ship' = yaw ship + INR n * yawStep /\
      roll ship' + tiltAngle = (1 - tiltSpeed) ^ n * (roll ship + tiltAngle).
Proof.
  induction n as [| n IH]; intros w ship H Hl.
  - exists ship. cbn. repeat split; [exact H | ring | ring].
  - destruct (frame_rotateLeft w ship H Hl) as [ship1 [H1 [Hl1 [Hy1 Hr1]]]].
    destruct (IH _ ship1 H1 Hl1) as [ship' [H' [Hy' Hr']]].
    exists ship'. cbn [frames]. split; [exact H' |]. split.
    + rewrite Hy', Hy1, S_INR. ring.
    + rewrite Hr', Hr1. cbn [pow]. ring.
Qed.

Lemma frames_S (n : nat) (w : World) :
  frames (S n) w = moveAndRotateSpaceShip (frames n w).
Proof.
  revert w. induction n as [| n IH]; intros w; [reflexivity |].
  change (frames (S (S n)) w) with (frames (S n) (moveAndRotateSpaceShip w)).
  rewrite IH. reflexivity.
Qed.

Lemma smoothing_vanishes (eps : R) :
  0 < eps -> forall c : R, exists N : nat,
    forall n : nat, (N <= n)%nat -> Rabs ((1 - tiltSpeed) ^ n * c) < eps.
Proof.
  intros Heps c.
  destruct (Req_dec c 0) as [-> | Hc].
  - exists 0%nat. intros n _. rewrite Rmult_0_r, Rabs_R0. exact Heps.
  - assert (0 < Rabs c) as Hac by (apply Rabs_pos_lt; exact Hc).
    assert (0 < eps / Rabs c) as Hq by (apply Rdiv_lt_0_compat; assumption).
    assert (Rabs (1 - tiltSpeed) < 1) as Hk
      by (unfold tiltSpeed; rewrite Rabs_right; lra).
    destruct (pow_lt_1_zero (1 - tiltSpeed) Hk (eps / Rabs c) Hq) as [N HN].
    exists N. intros n Hn. rewrite Rabs_mult.
    specialize (HN n Hn).
    apply Rmult_lt_compat_r with (r := Rabs c) in HN; [| exact Hac].
    replace (eps / Rabs c * Rabs c) with eps in HN by (field; lra).
    exact HN.
Qed.

(** A step of [rotation.y] by [d] turns the forward direction toward the
    pilot's left: the new direction has the component [cos pitch * sin d]
    along [up] cross the old direction, which is positive for the step
    0.005 of the yawLeft branch and a pitch within the tilt bound. *)
Lemma yaw_step_turns_left (e : Euler) (d : R) :
  dot (zAxis (mkEuler (ex e) (ey e + d) (ez e))) (cross up (zAxis e))
  = cos (ex e) * sin d /\
  (Rabs (ex e) <= 0.2 ->
   0 < dot (zAxis (mkEuler (ex e) (ey e + 0.005) (ez e))) (cross up (zAxis e))).
Proof.
  assert (forall k, dot (zAxis (mkEuler (ex e) (ey e + k) (ez e))) (cross up (zAxis e))
                    = cos (ex e) * sin k) as Hdot.
  { intros k. unfold dot, cross, up, zAxis. cbn [vx vy vz ex ey ez].
    rewrite sin_plus, cos_plus.
    pose proof (sin2_cos2 (ey e)) as Hy. unfold Rsqr in Hy.
    transitivity
      (cos (ex e) * sin k * (sin (ey e) * sin (ey e) + cos (ey e) * cos (ey e))).
    - ring.
    - rewrite Hy. ring. }
  split; [apply Hdot |].
  intros Hp. rewrite Hdot. apply Rabs_bound in Hp.
  pose proof PI2_1 as Hpi.
  apply Rmult_lt_0_compat.
  - apply cos_gt_0; lra.
  - apply sin_gt_0; lra.
Qed.

(** C7: with yawLeft held for consecutive frames and the ship loaded, the
    ship's yaw, in the convention in which a left turn lowers it (the
    heading, the opposite of [rotation.y]), decreases strictly from frame
    to frame, by 0.005 each; the roll converges monotonically toward the
    negative bound [-0.4] and never overshoots it: its distance from
    [-0.4] shrinks by the factor 0.97 per frame, it never changes side, and
    it falls below every positive bound eventually. *)
Theorem yawLeft_held (w : World) (ship : Object3D) :
  spaceShip w = Some ship ->
  rotateLeft w = true ->
  (forall n : nat,
     exists a b : Object3D,
       spaceShip (frames n w) = Some a /\
       spaceShip (frames (S n) w) = Some b /\
       heading b < heading a /\
       heading a = heading ship - INR n * 0.005 /\
       roll b - (- 0.4) = 0.97 * (roll a - (- 0.4)) /\
       Rabs (roll b - (- 0.4)) <= Rabs (roll a - (- 0.4)) /\
       (- 0.4 <= roll ship -> - 0.4 <= roll b <= roll a) /\
       (roll ship <= - 0.4 -> roll a <= roll b <= - 0.4)) /\
  (forall eps : R, 0 < eps ->
     exists N : nat, forall n : nat, (N <= n)%nat ->
       exists a : Object3D,
         spaceShip (frames n w) = Some a /\ Rabs (roll a - (- 0.4)) < eps).
Proof.
  intros H Hl.
  assert (1 - tiltSpeed = 0.97) as Hk by (unfold tiltSpeed; lra).
  split.
  - intros n.
    destruct (frames_rotateLeft n w ship H Hl) as [a [Ha [Hya Hra]]].
    destruct (frames_rotateLeft (S n) w ship H Hl) as [b [Hb [Hyb Hrb]]].
    exists a, b. split; [exact Ha |]. split; [exact Hb |].
    rewrite S_INR in Hyb. cbn [pow] in Hrb. rewrite Hk in Hra, Hrb.
    unfold yaw, yawStep in Hya, Hyb. unfold tiltAngle in Hra, Hrb.
    assert (0 <= 0.97 ^ n) as Hpow by (apply pow_le; lra).
    assert (roll b - (- 0.4) = 0.97 * (roll a - (- 0.4))) as Hstep by lra.
    unfold heading.
    split; [lra |]. split; [lra |]. split; [exact Hstep |].
    split; [| split].
    + rewrite Hstep, Rabs_mult, (Rabs_right 0.97) by lra.
      pose proof (Rabs_pos (roll a - (- 0.4))). lra.
    + intros Hlow. nra.
    + intros Hlow. nra.
  - intros eps Heps.
    destruct (smoothing_vanishes eps Heps (roll ship + tiltAngle)) as [N HN].
    exists N. intros n Hn.
    destruct (frames_rotateLeft n w ship H Hl) as [a [Ha [_ Hra]]].
    exists a. split; [exact Ha |].
    replace (roll a - (- 0.4)) with (roll a + tiltAngle) by (unfold tiltAngle; lra).
    rewrite Hra. apply HN. exact Hn.
Qed.

Lemma yawLeft_held_witness :
  exists a b : Object3D,
    spaceShip (frames 2 (world0 (Some loadedShip) false false true false FocusSpacial))
      = Some a /\
    spaceShip (frames 3 (world0 (Some loadedShip) false false true false FocusSpacial))
      = Some b /\
    heading b < heading a /\ - 0.4 <= roll b <= roll a.
Proof.
  destruct (yawLeft_held
              (world0 (Some loadedShip) false false true false FocusSpacial)
              loadedShip eq_refl eq_refl)
    as [Hstep _].
  destruct (Hstep 2%nat) as [a [b [Ha [Hb [Hy [_ [_ [_ [Hr _]]]]]]]]].
  exists a, b. repeat split; try assumption; apply Hr; cbn; lra.
Defined.

(** ** Theorems: the keyboard listeners *)

Lemma flag_setFlag (d d' : Direction) (b : bool) (w : World) :
  flag d' (setFlag d b w) = if Direction_eqb d d' then b else flag d' w.
Proof. destruct d, d'; reflexivity. Qed.

Lemma setFlag_rest (d : Direction) (b : bool) (w : World) :
  spaceShip (setFlag d b w) = spaceShip w /\
  cameraPivot (setFlag d b w) = cameraPivot w /\
  currentPlanet (setFlag d b w) = currentPlanet w.
Proof. destruct d; repeat split. Qed.

(** The frame update writes neither a flag nor the focus. *)
Lemma frame_flags (w : World) :
  (forall d, flag d (moveAndRotateSpaceShip w) = flag d w) /\
  currentPlanet (moveAndRotateSpaceShip w) = currentPlanet w.
Proof.
  unfold moveAndRotateSpaceShip.
  destruct (spaceShip w) as [ship |]; [| split; reflexivity].
  destruct (turnAndRoll w _ (cameraPivot w)) as [ship' pivot'].
  split; [intros d; destruct d |]; reflexivity.
Qed.

(** The keys of the four directions, in both cases. *)
Lemma wasd_keys :
  directionOfKey "w" = Some Forward /\ directionOfKey "W" = Some Forward /\
  directionOfKey "s" = Some Backward /\ directionOfKey "S" = Some Backward /\
  directionOfKey "a" = Some YawLeft /\ directionOfKey "A" = Some YawLeft /\
  directionOfKey "d" = Some YawRight /\ directionOfKey "D" = Some YawRight /\
  directionOfKey "Shift" = None /\ directionOfKey "ArrowUp" = None.
Proof. repeat split. Qed.

(** Outside the ship view a cleared flag stays cleared, whatever keys are
    pressed or released and however many frames pass. *)
Lemma cleared_flag_stays (d : Direction) (es : list Event) :
  forall w : World,
    spacial (currentPlanet w) = false -> flag d w = false ->
    flag d (run es w) = false.
Proof.
  unfold run. induction es as [| e es IH]; intros w Hm Hf; [exact Hf |].
  cbn [fold_left]. apply IH.
  - destruct e as [k | k |]; cbn [handle].
    + unfold keydown. rewrite Hm. exact Hm.
    + unfold keyup. destruct (directionOfKey k) as [d' |]; [| exact Hm].
      destruct (setFlag_rest d' false w) as [_ [_ Hc]]. rewrite Hc. exact Hm.
    + destruct (frame_flags w) as [_ Hc]. rewrite Hc. exact Hm.
  - destruct e as [k | k |]; cbn [handle].
    + unfold keydown. rewrite Hm. exact Hf.
    + unfold keyup. destruct (directionOfKey k) as [d' |]; [| exact Hf].
      rewrite flag_setFlag. destruct (Direction_eqb d' d); [reflexivity | exact Hf].
    + destruct (frame_flags w) as [Hfl _]. rewrite Hfl. exact Hf.
Qed.

(** C10: a key-down of W, S, A or D sets the flag of its direction (and no
    other) only when the ship view is selected and the ship is loaded, and
    otherwise changes nothing; a key-up clears the flag of its direction
    whatever the view is.  So after a key-up the flag is false in every
    view, and outside the ship view it stays false through any later key
    events and frames. *)
Theorem key_listeners (w : World) (key : string) (d : Direction) :
  directionOfKey key = Some d ->
  (spacial (currentPlanet w) && isSome (spaceShip w) = true ->
   keydown key w = setFlag d true w /\
   flag d (keydown key w) = true /\
   forall d', d' <> d -> flag d' (keydown key w) = flag d' w) /\
  (spacial (currentPlanet w) && isSome (spaceShip w) = false ->
   keydown key w = w) /\
  keyup key w = setFlag d false w /\
  flag d (keyup key w) = false /\
  (forall d', d' <> d -> flag d' (keyup key w) = flag d' w) /\
  (spacial (currentPlanet w) = false ->
   forall es : list Event, flag d (run es (keyup key w)) = false).
Proof.
  intros Hk. unfold keydown, keyup. rewrite Hk.
  assert (forall b d', d' <> d -> flag d' (setFlag d b w) = flag d' w) as Hother.
  { intros b d' Hd. destruct d, d'; try reflexivity; contradiction. }
  assert (forall b, flag d (setFlag d b w) = b) as Hsame
    by (intros b; destruct d; reflexivity).
  split; [| split; [| split; [| split; [| split]]]].
  - intros Hon. rewrite Hon. split; [reflexivity |]. split.
    + apply Hsame.
    + intros d' Hd. apply Hother. exact Hd.
  - intros Hoff. rewrite Hoff. reflexivity.
  - reflexivity.
  - apply Hsame.
  - intros d' Hd. apply Hother. exact Hd.
  - intros Hm es. apply cleared_flag_stays.
    + destruct (setFlag_rest d false w) as [_ [_ Hc]]. rewrite Hc. exact Hm.
    + apply Hsame.
Qed.

Lemma key_listeners_witness :
  keydown "w" (world0 (Some loadedShip) true false false false FocusNull)
    = world0 (Some loadedShip) true false false false FocusNull /\
  flag Forward (keyup "W" (world0 (Some loadedShip) true false false false FocusNull))
    = false /\
  flag Forward
    (run [KeyDown "w"; Frame; KeyDown "W"]
       (keyup "W" (world0 (Some loadedShip) true false false false FocusNull)))
    = false.
Proof.
  destruct (key_listeners
              (world0 (Some loadedShip) true false false false FocusNull)
              "W" Forward eq_refl)
    as [_ [Hoff [_ [Hup [_ Hstay]]]]].
  split; [| split].
  - exact (Hoff eq_refl).
  - exact Hup.
  - exact (Hstay eq_refl [KeyDown "w"; Frame; KeyDown "W"]).
Defined.

(** ** The bounds along a session *)

(** The listeners write flags only. *)
Lemma key_events_keep_ship (k : string) (w : World) :
  spaceShip (keydown k w) = spaceShip w /\ spaceShip (keyup k w) = spaceShip w.
Proof.
  unfold keydown, keyup.
  destruct (spacial (currentPlanet w) && isSome (spaceShip w));
    destruct (directionOfKey k) as [d |];
    try destruct (setFlag_rest d true w) as [H1 _];
    try destruct (setFlag_rest d false w) as [H2 _];
    split; congruence.
Qed.

(** The tilt bounds hold along every sequence of key events and frames. *)
Lemma run_keeps_tilt (es : list Event) :
  forall w : World, tiltBounded w -> tiltBounded (run es w).
Proof.
  unfold run. induction es as [| e es IH]; intros w Hw; [exact Hw |].
  cbn [fold_left]. apply IH.
  destruct e as [k | k |]; cbn [handle].
  - unfold tiltBounded. destruct (key_events_keep_ship k w) as [H _]. rewrite H. exact Hw.
  - unfold tiltBounded. destruct (key_events_keep_ship k w) as [_ H]. rewrite H. exact Hw.
  - apply frame_keeps_tilt. exact Hw.
Qed.

(** From the ship as it is loaded, every session keeps the tilt bounds. *)
Lemma session_keeps_tilt (es : list Event) (f b l r : bool) (c : Focus) :
  tiltBounded (run es (world0 (Some loadedShip) f b l r c)).
Proof.
  apply run_keeps_tilt. unfold tiltBounded, roll, pitch, tiltAngle, forwardTiltAngle.
  cbn. rewrite Rabs_R0. split; lra.
Qed.

(** ** Further properties: the orbital update *)

(** X1: two updates in a row are one update with the sum of the two [dt]:
    the self-rotation accumulates linearly and the position is recomputed,
    not accumulated.  In particular an update with [dt = 0] after any update
    changes nothing. *)
Theorem updatePosition_adds_dt (dt1 dt2 : R) (p : PlanetPhysics) :
  updatePosition dt2 (updatePosition dt1 p) = updatePosition (dt1 + dt2) p /\
  updatePosition 0 (updatePosition dt1 p) = updatePosition dt1 p.
Proof.
  assert (forall a b, updatePosition b (updatePosition a p) = updatePosition (a + b) p)
    as Hadd.
  { intros a b. unfold updatePosition, setRotationY, setPosition.
    cbn [params t ownMesh position rotation scale ex ey ez].
    f_equal. f_equal. f_equal. ring. }
  split; [apply Hadd |].
  rewrite Hadd. f_equal. ring.
Qed.

Lemma animate_keeps (planets : list PlanetPhysics) :
  map params (animate planets) = map params planets /\
  map (fun p => ey (rotation (ownMesh p))) (animate planets) =
  map (fun p => ey (rotation (ownMesh p)) + selfRotationVelocity (params p) * 0.01)
      planets.
Proof.
  unfold animate. rewrite !map_map. split; reflexivity.
Qed.

(** X2: after [n] turns of the frame loop every body has turned about its
    own axis by [n] times [selfRotationVelocity * 0.01]; the list keeps its
    bodies, their order and their parameters. *)
Theorem animateFrames_self_rotation (n : nat) (planets : list PlanetPhysics) :
  map params (animateFrames n planets) = map params planets /\
  map (fun p => ey (rotation (ownMesh p))) (animateFrames n planets) =
  map (fun p => ey (rotation (ownMesh p))
                + INR n * (selfRotationVelocity (params p) * 0.01))
      planets.
Proof.
  revert planets. induction n as [| n IH]; intros planets.
  - cbn [animateFrames]. split; [reflexivity |].
    apply map_ext. intros p. cbn [INR]. ring.
  - cbn [animateFrames]. destruct (IH (animate planets)) as [Hp Hr].
    rewrite Hp, Hr. unfold animate. rewrite !map_map.
    split; [reflexivity |].
    apply map_ext. intros p. rewrite S_INR.
    unfold updatePosition, setRotationY, setPosition.
    cbn [params t ownMesh position rotation scale ex ey ez]. ring.
Qed.

(** X3: the unchecked signs.  A negative angular velocity runs the same
    circle the other way round: the x offset from the centre changes sign,
    the z offset stays.  A negative radius puts the body at the opposite
    point of the circle, and radius 0 puts it at the centre's x and z for
    every phase. *)
Theorem orbit_sign_symmetries (dt : R) (p : PlanetPhysics) :
  let c := rotationCenter (params p) in
  let q := position (ownMesh (updatePosition dt p)) in
  let back :=
    position (ownMesh (updatePosition dt
      (withRotationVelocity (- rotationVelocity (params p)) p))) in
  let opposite :=
    position (ownMesh (updatePosition dt (withRadius (- radius (params p)) p))) in
  (vx back - vx c = - (vx q - vx c) /\ vz back = vz q) /\
  (vx opposite - vx c = - (vx q - vx c) /\ vz opposite - vz c = - (vz q - vz c)) /\
  position (ownMesh (updatePosition dt (withRadius 0 p))) = mkVector3 (vx c) 0 (vz c).
Proof.
  cbv zeta. rewrite !updatePosition_position.
  unfold withRotationVelocity, withRadius.
  cbn [params t radius rotationVelocity rotationCenter vx vy vz].
  replace (t p * - rotationVelocity (params p))
    with (- (t p * rotationVelocity (params p))) by ring.
  rewrite sin_neg, cos_neg.
  repeat split; try ring.
  f_equal; ring.
Qed.

(** The chord between two points of the unit circle. *)
Lemma chord_sq (a b : R) :
  (sin a - sin b) * (sin a - sin b) + (cos a - cos b) * (cos a - cos b)
  = 2 * (1 - cos (a - b)).
Proof.
  rewrite cos_minus.
  pose proof (sin2_cos2 a) as Ha. pose proof (sin2_cos2 b) as Hb.
  unfold Rsqr in Ha, Hb. nra.
Qed.

(** X4: the motion is uniform: the squared distance between the positions
    of a body at two phases depends only on the phase difference; it is
    [2 r^2 (1 - cos ((t2 - t1) w))]. *)
Theorem orbit_chord (dt1 dt2 t1 t2 : R) (p : PlanetPhysics) :
  let r := radius (params p) in
  let w := rotationVelocity (params p) in
  lengthSq (sub (position (ownMesh (updatePosition dt2 (atPhase t2 p))))
                (position (ownMesh (updatePosition dt1 (atPhase t1 p)))))
  = 2 * (r * r) * (1 - cos ((t2 - t1) * w)).
Proof.
  cbv zeta. rewrite !updatePosition_position.
  unfold atPhase, sub, lengthSq. cbn [params t vx vy vz].
  pose proof (chord_sq (t2 * rotationVelocity (params p))
                       (t1 * rotationVelocity (params p))) as H.
  replace ((t2 - t1) * rotationVelocity (params p))
    with (t2 * rotationVelocity (params p) - t1 * rotationVelocity (params p)) by ring.
  transitivity
    (radius (params p) * radius (params p)
     * (2 * (1 - cos (t2 * rotationVelocity (params p)
                      - t1 * rotationVelocity (params p))))); [| ring].
  rewrite <- H. ring.
Qed.

(** ** Further properties: the keyboard listeners *)

Lemma directionOfKey_long (c c' : ascii) (r : string) :
  directionOfKey (String c (String c' r)) = None.
Proof.
  unfold directionOfKey. cbn [toLowerCase String.eqb].
  repeat match goal with
         | |- context [Ascii.eqb ?a ?b] => destruct (Ascii.eqb a b)
         end; reflexivity.
Qed.

Lemma directionOfKey_single (c : ascii) (d : Direction) :
  directionOfKey (String c EmptyString) = Some d <->
  In (String c EmptyString, d) directionKeys.
Proof.
  destruct c as [b0 b1 b2 b3 b4 b5 b6 b7].
  destruct b0, b1, b2, b3, b4, b5, b6, b7;
    vm_compute;
    (split;
     [ intros H; first [discriminate H | injection H as <-; tauto]
     | intros H;
       repeat match type of H with
              | _ \/ _ => destruct H as [H | H]
              end;
       first [contradiction | discriminate H | injection H as <-; reflexivity] ]).
Qed.

(** X5: exactly the eight keys [w W s S a A d D] name a direction, each the
    direction of its letter; every other key, such as the empty key or a key
    of several characters, is ignored by both listeners. *)
Theorem direction_keys_exact (key : string) :
  (forall d : Direction,
     directionOfKey key = Some d <-> In (key, d) directionKeys) /\
  (~ In key (map fst directionKeys) ->
   forall w : World, keydown key w = w /\ keyup key w = w).
Proof.
  assert (forall d, directionOfKey key = Some d <-> In (key, d) directionKeys) as Hex.
  { intros d. destruct key as [| c [| c' r]].
    - vm_compute. split; [discriminate |].
      intros H.
      repeat match type of H with
             | _ \/ _ => destruct H as [H | H]
             end; first [contradiction | discriminate H].
    - apply directionOfKey_single.
    - rewrite directionOfKey_long. split; [discriminate |].
      intros H. cbn in H.
      repeat match type of H with
             | _ \/ _ => destruct H as [H | H]
             end; first [contradiction | discriminate H]. }
  split; [exact Hex |].
  intros Hnot w. unfold keydown, keyup.
  destruct (directionOfKey key) as [d |] eqn:Hd.
  - exfalso. apply Hnot.
    pose proof (proj1 (Hex d) eq_refl) as Hin.
    apply (in_map fst) in Hin. exact Hin.
  - destruct (spacial (currentPlanet w) && isSome (spaceShip w)); split; reflexivity.
Qed.

Lemma direction_keys_exact_witness :
  keydown "ArrowUp" (world0 (Some loadedShip) false false false false FocusSpacial)
    = world0 (Some loadedShip) false false false false FocusSpacial /\
  keyup "ww" (world0 (Some loadedShip) true false false false FocusSpacial)
    = world0 (Some loadedShip) true false false false FocusSpacial.
Proof.
  split.
  - apply (direction_keys_exact "ArrowUp").
    cbn. intros H.
    repeat match type of H with
           | _ \/ _ => destruct H as [H | H]
           end; first [contradiction | discriminate H].
  - apply (direction_keys_exact "ww").
    cbn. intros H.
    repeat match type of H with
           | _ \/ _ => destruct H as [H | H]
           end; first [contradiction | discriminate H].
Defined.

Lemma shipControlled_setFlag (d : Direction) (b : bool) (w : World) :
  shipControlled (setFlag d b w) = shipControlled w.
Proof. destruct d; reflexivity. Qed.

Lemma keydown_cases (key : string) (w : World) :
  keydown key w =
  match directionOfKey key with
  | Some d => if shipControlled w then setFlag d true w else w
  | None => w
  end.
Proof.
  unfold keydown, shipControlled.
  destruct (spacial (currentPlanet w) && isSome (spaceShip w));
    destruct (directionOfKey key); reflexivity.
Qed.

Lemma setFlag_setFlag (d : Direction) (b b' : bool) (w : World) :
  setFlag d b (setFlag d b' w) = setFlag d b w.
Proof. destruct d; reflexivity. Qed.

Lemma setFlag_same (d : Direction) (w : World) : setFlag d (flag d w) w = w.
Proof. destruct w, d; reflexivity. Qed.

Lemma setFlag_comm (d1 d2 : Direction) (b1 b2 : bool) (w : World) :
  d1 <> d2 \/ b1 = b2 ->
  setFlag d1 b1 (setFlag d2 b2 w) = setFlag d2 b2 (setFlag d1 b1 w).
Proof.
  intros [Hd | ->]; destruct d1, d2; try reflexivity; contradiction.
Qed.

(** X6: a repeated key-down (the auto-repeat of a held key) and a repeated
    key-up change nothing more; a key-up undoes a key-down of the same key,
    and brings back the very state before the press when the flag was not
    set before. *)
Theorem press_and_release (key : string) (w : World) :
  keydown key (keydown key w) = keydown key w /\
  keyup key (keyup key w) = keyup key w /\
  keyup key (keydown key w) = keyup key w /\
  (forall d : Direction,
     directionOfKey key = Some d -> flag d w = false ->
     keyup key (keydown key w) = w).
Proof.
  assert (keyup key (keydown key w) = keyup key w) as Hup.
  { rewrite keydown_cases. unfold keyup.
    destruct (directionOfKey key) as [d |]; [| reflexivity].
    destruct (shipControlled w); [apply setFlag_setFlag | reflexivity]. }
  split; [| split; [| split; [exact Hup |]]].
  - rewrite !keydown_cases.
    destruct (directionOfKey key) as [d |]; [| reflexivity].
    destruct (shipControlled w) eqn:Hc.
    + rewrite shipControlled_setFlag, Hc. apply setFlag_setFlag.
    + rewrite Hc. reflexivity.
  - unfold keyup. destruct (directionOfKey key) as [d |] eqn:Hd; rewrite ?Hd;
      [apply setFlag_setFlag | reflexivity].
  - intros d Hd Hf. rewrite Hup. unfold keyup. rewrite Hd, <- Hf.
    apply setFlag_same.
Qed.

Lemma press_and_release_witness :
  keyup "a" (keydown "a" (world0 (Some loadedShip) false false false false FocusSpacial))
  = world0 (Some loadedShip) false false false false FocusSpacial.
Proof.
  destruct (press_and_release "a"
              (world0 (Some loadedShip) false false false false FocusSpacial))
    as [_ [_ [_ Hback]]].
  exact (Hback YawLeft eq_refl eq_refl).
Defined.

(** X7: the listeners of different keys do not disturb each other: two
    key-downs commute, two key-ups commute, and a key-down commutes with a
    key-up of a key of another direction. *)
Theorem key_events_commute (k1 k2 : string) (w : World) :
  keydown k1 (keydown k2 w) = keydown k2 (keydown k1 w) /\
  keyup k1 (keyup k2 w) = keyup k2 (keyup k1 w) /\
  (directionOfKey k1 <> directionOfKey k2 ->
   keydown k1 (keyup k2 w) = keyup k2 (keydown k1 w)).
Proof.
  split; [| split].
  - rewrite !keydown_cases.
    destruct (directionOfKey k1) as [d1 |], (directionOfKey k2) as [d2 |];
      try reflexivity.
    destruct (shipControlled w) eqn:Hc;
      rewrite ?shipControlled_setFlag, ?Hc; [| reflexivity].
    apply setFlag_comm. right. reflexivity.
  - unfold keyup.
    destruct (directionOfKey k1) as [d1 |], (directionOfKey k2) as [d2 |];
      try reflexivity.
    apply setFlag_comm. right. reflexivity.
  - intros Hne. rewrite !keydown_cases. unfold keyup.
    destruct (directionOfKey k1) as [d1 |], (directionOfKey k2) as [d2 |];
      try reflexivity.
    rewrite shipControlled_setFlag.
    destruct (shipControlled w); [| reflexivity].
    apply setFlag_comm. left. intros ->. apply Hne. reflexivity.
Qed.

Lemma key_events_commute_witness :
  keydown "w" (keyup "d" (world0 (Some loadedShip) false false false true FocusSpacial))
  = keyup "d" (keydown "w" (world0 (Some loadedShip) false false false true FocusSpacial)).
Proof.
  destruct (key_events_commute "w" "d"
              (world0 (Some loadedShip) false false false true FocusSpacial))
    as [_ [_ Hmix]].
  apply Hmix. cbv. discriminate.
Defined.

(** ** Further properties: the course of the ship *)

Lemma length_zero_vector : length (mkVector3 0 0 0) = 0.
Proof.
  unfold length, lengthSq. cbn [vx vy vz].
  replace (0 * 0 + 0 * 0 + 0 * 0) with 0 by ring. apply sqrt_0.
Qed.

(** The forward direction by the sign of the z scale. *)
Lemma getWorldDirection_cases (o : Object3D) :
  (0 < vz (scale o) ->
   getWorldDirection o =
   mkVector3 (sin (yaw o)) (- (sin (pitch o) * cos (yaw o))) (cos (pitch o) * cos (yaw o))) /\
  (vz (scale o) < 0 ->
   getWorldDirection o =
   mkVector3 (- sin (yaw o)) (sin (pitch o) * cos (yaw o)) (- (cos (pitch o) * cos (yaw o)))) /\
  (vz (scale o) = 0 -> getWorldDirection o = mkVector3 0 0 0).
Proof.
  unfold getWorldDirection, normalize, yaw, pitch.
  rewrite length_multiplyScalar, length_zAxis, Rmult_1_r.
  split; [| split]; intros Hs.
  - rewrite Rabs_right by lra.
    destruct (Req_dec_T (vz (scale o)) 0) as [H0 | _]; [lra |].
    unfold multiplyScalar, zAxis; cbn [vx vy vz]. f_equal; field; lra.
  - rewrite Rabs_left by lra.
    destruct (Req_dec_T (- vz (scale o)) 0) as [H0 | _]; [lra |].
    unfold multiplyScalar, zAxis; cbn [vx vy vz]. f_equal; field; lra.
  - rewrite Hs, Rabs_R0.
    destruct (Req_dec_T 0 0) as [_ | H0]; [| lra].
    unfold multiplyScalar, zAxis; cbn [vx vy vz]. f_equal; ring.
Qed.

(** X8: the forward direction in closed form.  For a positive z scale it
    is [(sin yaw, - sin pitch * cos yaw, cos pitch * cos yaw)]: the scale
    cancels and the roll does not enter; for a negative z scale it is the
    opposite vector, and for a zero z scale the zero vector. *)
Theorem forward_direction (o : Object3D) :
  (0 < vz (scale o) ->
   getWorldDirection o =
   mkVector3 (sin (yaw o)) (- (sin (pitch o) * cos (yaw o))) (cos (pitch o) * cos (yaw o))) /\
  (vz (scale o) < 0 ->
   getWorldDirection o =
   mkVector3 (- sin (yaw o)) (sin (pitch o) * cos (yaw o)) (- (cos (pitch o) * cos (yaw o)))) /\
  (vz (scale o) = 0 -> getWorldDirection o = mkVector3 0 0 0).
Proof. exact (getWorldDirection_cases o). Qed.

Lemma forward_direction_witness :
  getWorldDirection
    (mkObject3D (mkVector3 20 0 (-500)) (mkEuler 0 0 0.4) (mkVector3 2 2 2))
  = mkVector3 (sin 0) (- (sin 0 * cos 0)) (cos 0 * cos 0).
Proof.
  apply (forward_direction
           (mkObject3D (mkVector3 20 0 (-500)) (mkEuler 0 0 0.4) (mkVector3 2 2 2))).
  cbn. lra.
Defined.

Lemma getWorldDirection_length (o : Object3D) : length (getWorldDirection o) <= 1.
Proof.
  destruct (Req_dec (vz (scale o)) 0) as [H0 | Hn].
  - destruct (getWorldDirection_cases o) as [_ [_ Hz]]. rewrite (Hz H0), length_zero_vector. lra.
  - rewrite getWorldDirection_unit by exact Hn. lra.
Qed.

(** The triangle inequality of [length]. *)
Lemma length_add (u v : Vector3) : length (add u v) <= length u + length v.
Proof.
  unfold length.
  pose proof (sqrt_pos (lengthSq u)) as Hu. pose proof (sqrt_pos (lengthSq v)) as Hv.
  pose proof (sqrt_sqrt _ (lengthSq_nonneg u)) as Hu2.
  pose proof (sqrt_sqrt _ (lengthSq_nonneg v)) as Hv2.
  rewrite <- (sqrt_square (sqrt (lengthSq u) + sqrt (lengthSq v))) by lra.
  apply sqrt_le_1_alt.
  set (a := sqrt (lengthSq u)) in *. set (b := sqrt (lengthSq v)) in *.
  assert (vx u * vx v + vy u * vy v + vz u * vz v <= a * b) as Hcs.
  { destruct (Rle_dec (vx u * vx v + vy u * vy v + vz u * vz v) 0) as [Hneg | Hpos].
    - pose proof (Rmult_le_pos a b Hu Hv). lra.
    - apply Rnot_le_lt in Hpos.
      apply Rsqr_incr_0_var; [| apply Rmult_le_pos; assumption].
      unfold Rsqr.
      replace (a * b * (a * b)) with (a * a * (b * b)) by ring.
      rewrite Hu2, Hv2. unfold lengthSq.
      pose proof (Rle_0_sqr (vx u * vy v - vy u * vx v)) as H1.
      pose proof (Rle_0_sqr (vx u * vz v - vz u * vx v)) as H2.
      pose proof (Rle_0_sqr (vy u * vz v - vz u * vy v)) as H3.
      unfold Rsqr in H1, H2, H3. lra. }
  replace (lengthSq (add u v))
    with (lengthSq u + lengthSq v + 2 * (vx u * vx v + vy u * vy v + vz u * vz v))
    by (unfold lengthSq, add; cbn [vx vy vz]; ring).
  rewrite <- Hu2, <- Hv2. fold a b. lra.
Qed.

Lemma distanceTo_triangle (a b c : Vector3) :
  distanceTo a c <= distanceTo a b + distanceTo b c.
Proof.
  unfold distanceTo.
  replace (sub a c) with (add (sub a b) (sub b c))
    by (unfold add, sub; cbn [vx vy vz]; f_equal; ring).
  apply length_add.
Qed.

Lemma distanceTo_self (a : Vector3) : distanceTo a a = 0.
Proof.
  unfold distanceTo.
  replace (sub a a) with (mkVector3 0 0 0)
    by (unfold sub; f_equal; ring).
  apply length_zero_vector.
Qed.

(** One frame seen from the ship: where it goes, and what it keeps. *)
Lemma frame_pose (w : World) (ship : Object3D) :
  spaceShip w = Some ship ->
  exists ship',
    spaceShip (moveAndRotateSpaceShip w) = Some ship' /\
    position ship' = add (position ship) (multiplyScalar (getWorldDirection ship) stepLength) /\
    scale ship' = scale ship /\
    pitch ship' = lerp (pitch ship) (pitchTarget w) tiltSpeed /\
    roll ship' = lerp (roll ship) (rollTarget w) tiltSpeed /\
    yaw ship' = yaw ship + yawRate w /\
    position (cameraPivot (moveAndRotateSpaceShip w)) = position ship' /\
    yaw (cameraPivot (moveAndRotateSpaceShip w)) = yaw (cameraPivot w) + yawRate w.
Proof.
  intros H.
  frame_cases w H;
    (eexists; split; [reflexivity |]; split; [reflexivity |]; split; [reflexivity |];
     unfold pitch, roll, yaw, pitchTarget, rollTarget, yawRate, lerp,
       forwardTiltAngle, tiltAngle, tiltSpeed, yawStep;
     cbn; repeat split; lra).
Qed.

Lemma frame_distance (w : World) (ship ship' : Object3D) :
  spaceShip w = Some ship ->
  spaceShip (moveAndRotateSpaceShip w) = Some ship' ->
  distanceTo (position ship') (position ship) <= stepLength.
Proof.
  intros H H'. destruct (frame_pose w ship H) as [s [Hs [Hp _]]].
  rewrite Hs in H'. injection H' as <-.
  unfold distanceTo. rewrite Hp.
  replace (sub (add (position ship) (multiplyScalar (getWorldDirection ship) stepLength))
               (position ship))
    with (multiplyScalar (getWorldDirection ship) stepLength)
    by (unfold add, sub, multiplyScalar; cbn [vx vy vz]; f_equal; ring).
  rewrite length_multiplyScalar. unfold stepLength. rewrite Rabs_right by lra.
  pose proof (getWorldDirection_length ship). lra.
Qed.

(** X9: the ship never goes faster than 0.3 per frame: over any session of
    key events and frames, a ship that is there stays there, and it ends no
    farther from where it started than 0.3 times the number of frames. *)
Theorem ship_speed_bound (es : list Event) :
  forall (w : World) (ship : Object3D),
    spaceShip w = Some ship ->
    exists ship',
      spaceShip (run es w) = Some ship' /\
      distanceTo (position ship') (position ship) <= 0.3 * INR (frameCount es).
Proof.
  unfold run. induction es as [| e es IH]; intros w ship H.
  - exists ship. cbn. split; [exact H |]. rewrite distanceTo_self. lra.
  - cbn [fold_left].
    assert (exists s1, spaceShip (handle w e) = Some s1 /\
              distanceTo (position s1) (position ship)
              <= 0.3 * INR (frameCount (e :: es)) - 0.3 * INR (frameCount es))
      as [s1 [H1 Hd1]].
    { destruct e as [k | k |]; cbn [handle frameCount].
      - exists ship. destruct (key_events_keep_ship k w) as [Hk _].
        rewrite Hk. split; [exact H |]. rewrite distanceTo_self. lra.
      - exists ship. destruct (key_events_keep_ship k w) as [_ Hk].
        rewrite Hk. split; [exact H |]. rewrite distanceTo_self. lra.
      - destruct (frame_pose w ship H) as [s1 [Hs1 _]].
        exists s1. split; [exact Hs1 |].
        pose proof (frame_distance w ship s1 H Hs1) as Hd. unfold stepLength in Hd.
        rewrite S_INR. lra. }
    destruct (IH _ s1 H1) as [ship' [H' Hd']].
    exists ship'. split; [exact H' |].
    pose proof (distanceTo_triangle (position ship') (position s1) (position ship)).
    lra.
Qed.

Lemma ship_speed_bound_witness :
  exists ship',
    spaceShip (run [KeyDown "a"; Frame; Frame; KeyUp "a"; Frame]
                 (world0 (Some loadedShip) false false false false FocusSpacial))
      = Some ship' /\
    distanceTo (position ship') (position loadedShip) <= 0.3 * INR 3.
Proof.
  exact (ship_speed_bound [KeyDown "a"; Frame; Frame; KeyUp "a"; Frame]
           (world0 (Some loadedShip) false false false false FocusSpacial)
           loadedShip eq_refl).
Defined.

(** The listeners write neither the ship nor the camera pivot. *)
Lemma key_events_keep_pivot (k : string) (w : World) :
  cameraPivot (keydown k w) = cameraPivot w /\ cameraPivot (keyup k w) = cameraPivot w.
Proof.
  unfold keydown, keyup.
  destruct (spacial (currentPlanet w) && isSome (spaceShip w));
    destruct (directionOfKey k) as [d |];
    try destruct (setFlag_rest d true w) as [_ [H1 _]];
    try destruct (setFlag_rest d false w) as [_ [H2 _]];
    split; congruence.
Qed.

Lemma run_keeps_scale (es : list Event) :
  forall (w : World) (ship : Object3D),
    spaceShip w = Some ship ->
    exists ship', spaceShip (run es w) = Some ship' /\ scale ship' = scale ship.
Proof.
  unfold run. induction es as [| e es IH]; intros w ship H.
  - exists ship. split; [exact H | reflexivity].
  - cbn [fold_left].
    assert (exists s1, spaceShip (handle w e) = Some s1 /\ scale s1 = scale ship)
      as [s1 [H1 Hs1]].
    { destruct e as [k | k |]; cbn [handle].
      - exists ship. destruct (key_events_keep_ship k w) as [Hk _].
        rewrite Hk. split; [exact H | reflexivity].
      - exists ship. destruct (key_events_keep_ship k w) as [_ Hk].
        rewrite Hk. split; [exact H | reflexivity].
      - destruct (frame_pose w ship H) as [s1 [Hs1 [_ [Hsc _]]]].
        exists s1. split; assumption. }
    destruct (IH _ s1 H1) as [ship' [H' Hs']].
    exists ship'. split; [exact H' | congruence].
Qed.

(** X10: once the model is loaded the ship starts at (20, 0, -500), and at
    any later moment of a session of key events and frames its scale is
    still (2, 2, 2) and the next frame moves it by exactly 0.3, whatever the
    model's own pose was and whatever the flags are. *)
Theorem loaded_ship_steps (m : Object3D) (w : World) (es : list Event) :
  (exists ship0,
     spaceShip (onLoad m w) = Some ship0 /\
     position ship0 = mkVector3 20 0 (-500) /\ rotation ship0 = rotation m) /\
  exists ship ship',
    spaceShip (run es (onLoad m w)) = Some ship /\
    scale ship = mkVector3 2 2 2 /\
    spaceShip (moveAndRotateSpaceShip (run es (onLoad m w))) = Some ship' /\
    distanceTo (position ship') (position ship) = 0.3.
Proof.
  split.
  - eexists. split; [reflexivity |]. split; reflexivity.
  - destruct (run_keeps_scale es (onLoad m w) _ eq_refl) as [ship [Hs Hsc]].
    cbn [scale onLoad] in Hsc.
    destruct (frame_pose _ ship Hs) as [ship' [Hs' [Hp _]]].
    exists ship, ship'. repeat split; try assumption.
    unfold distanceTo. rewrite Hp.
    replace (sub (add (position ship) (multiplyScalar (getWorldDirection ship) stepLength))
                 (position ship))
      with (multiplyScalar (getWorldDirection ship) stepLength)
      by (unfold add, sub, multiplyScalar; cbn [vx vy vz]; f_equal; ring).
    apply step_has_stepLength. rewrite Hsc. cbn. lra.
Qed.

Lemma handle_keeps_attached_frame (w : World) : attached (moveAndRotateSpaceShip w).
Proof.
  unfold attached. destruct (spaceShip w) as [ship |] eqn:H.
  - destruct (frame_pose w ship H) as [ship' [Hs' [_ [_ [_ [_ [_ [Hpp _]]]]]]]].
    rewrite Hs'. exact Hpp.
  - unfold moveAndRotateSpaceShip. rewrite H. rewrite H. exact I.
Qed.

Lemma handle_keeps_attached (w : World) (e : Event) :
  attached w -> attached (handle w e).
Proof.
  intros Hw. destruct e as [k | k |]; cbn [handle].
  - unfold attached in *.
    destruct (key_events_keep_ship k w) as [Hs _].
    destruct (key_events_keep_pivot k w) as [Hp _]. rewrite Hs, Hp. exact Hw.
  - unfold attached in *.
    destruct (key_events_keep_ship k w) as [_ Hs].
    destruct (key_events_keep_pivot k w) as [_ Hp]. rewrite Hs, Hp. exact Hw.
  - apply handle_keeps_attached_frame.
Qed.

Lemma run_keeps_attached (es : list Event) :
  forall w : World, attached w -> attached (run es w).
Proof.
  unfold run. induction es as [| e es IH]; intros w Hw; [exact Hw |].
  cbn [fold_left]. apply IH. apply handle_keeps_attached. exact Hw.
Qed.

Lemma handle_yaw_offset (w : World) (e : Event) (ship : Object3D) :
  spaceShip w = Some ship ->
  exists ship',
    spaceShip (handle w e) = Some ship' /\
    yaw (cameraPivot (handle w e)) - yaw ship' = yaw (cameraPivot w) - yaw ship.
Proof.
  intros H. destruct e as [k | k |]; cbn [handle].
  - exists ship. destruct (key_events_keep_ship k w) as [Hs _].
    destruct (key_events_keep_pivot k w) as [Hp _]. rewrite Hs, Hp.
    split; [exact H | reflexivity].
  - exists ship. destruct (key_events_keep_ship k w) as [_ Hs].
    destruct (key_events_keep_pivot k w) as [_ Hp]. rewrite Hs, Hp.
    split; [exact H | reflexivity].
  - destruct (frame_pose w ship H) as [ship' [Hs' [_ [_ [_ [_ [Hy [_ Hpy]]]]]]]].
    exists ship'. split; [exact Hs' |]. rewrite Hy, Hpy. ring.
Qed.

(** X11: the camera stays on the ship for a whole session.  After one frame
    the pivot sits on the ship, and it still does after any further key
    events and frames; and from any state with a ship, the yaw offset
    between pivot and ship at the end of a session is the one at its
    start. *)
Theorem camera_attached_along_session (es : list Event) (w : World) :
  attached (run es (moveAndRotateSpaceShip w)) /\
  (forall ship : Object3D,
     spaceShip w = Some ship ->
     exists ship',
       spaceShip (run es w) = Some ship' /\
       yaw (cameraPivot (run es w)) - yaw ship' = yaw (cameraPivot w) - yaw ship).
Proof.
  split.
  - apply run_keeps_attached. apply (handle_keeps_attached_frame w).
  - revert w. unfold run. induction es as [| e es IH]; intros w ship H.
    + exists ship. split; [exact H | reflexivity].
    + cbn [fold_left].
      destruct (handle_yaw_offset w e ship H) as [s1 [H1 Ho1]].
      destruct (IH _ s1 H1) as [ship' [H' Ho']].
      exists ship'. split; [exact H' |]. rewrite Ho', Ho1. reflexivity.
Qed.

Lemma camera_attached_along_session_witness :
  exists ship',
    spaceShip (run [KeyDown "d"; Frame; Frame]
                 (world0 (Some loadedShip) false false false false FocusSpacial))
      = Some ship' /\
    yaw (cameraPivot (run [KeyDown "d"; Frame; Frame]
                 (world0 (Some loadedShip) false false false false FocusSpacial)))
      - yaw ship' = yaw origin - yaw loadedShip.
Proof.
  destruct (camera_attached_along_session [KeyDown "d"; Frame; Frame]
              (world0 (Some loadedShip) false false false false FocusSpacial))
    as [_ Hoff].
  exact (Hoff loadedShip eq_refl).
Defined.

(** ** Further properties: holding any keys *)

Lemma frame_keeps_targets (w : World) :
  pitchTarget (moveAndRotateSpaceShip w) = pitchTarget w /\
  rollTarget (moveAndRotateSpaceShip w) = rollTarget w /\
  yawRate (moveAndRotateSpaceShip w) = yawRate w.
Proof.
  destruct (frame_flags w) as [Hf _].
  pose proof (Hf Forward) as H1. pose proof (Hf Backward) as H2.
  pose proof (Hf YawLeft) as H3. pose proof (Hf YawRight) as H4.
  cbn [flag] in H1, H2, H3, H4.
  unfold pitchTarget, rollTarget, yawRate. rewrite H1, H2, H3, H4.
  repeat split.
Qed.

Lemma frames_pose (n : nat) :
  forall (w : World) (ship : Object3D),
    spaceShip w = Some ship ->
    exists a,
      spaceShip (frames n w) = Some a /\
      pitch a - pitchTarget w = (1 - tiltSpeed) ^ n * (pitch ship - pitchTarget w) /\
      roll a - rollTarget w = (1 - tiltSpeed) ^ n * (roll ship - rollTarget w) /\
      yaw a = yaw ship + INR n * yawRate w /\
      yaw (cameraPivot (frames n w)) = yaw (cameraPivot w) + INR n * yawRate w.
Proof.
  induction n as [| n IH]; intros w ship H.
  - exists ship. cbn. repeat split; [exact H | ring | ring | ring | ring].
  - destruct (frame_pose w ship H) as [s1 [H1 [_ [_ [Hp [Hr [Hy [_ Hpy]]]]]]]].
    destruct (frame_keeps_targets w) as [Tp [Tr Ty]].
    destruct (IH _ s1 H1) as [a [Ha [Hpa [Hra [Hya Hpya]]]]].
    rewrite Tp in Hpa. rewrite Tr in Hra. rewrite Ty in Hya, Hpya.
    exists a. cbn [frames]. split; [exact Ha |].
    unfold lerp in Hp, Hr. rewrite S_INR. cbn [pow].
    repeat split.
    + rewrite Hpa, Hp. ring.
    + rewrite Hra, Hr. ring.
    + rewrite Hya, Hy. ring.
    + rewrite Hpya, Hpy. ring.
Qed.

Lemma smoothing_decays (n : nat) : 0 <= (1 - tiltSpeed) ^ n <= 1.
Proof.
  unfold tiltSpeed. induction n as [| n IH]; cbn [pow]; [lra |].
  split; nra.
Qed.

Lemma smoothing_100 (n : nat) : (100 <= n)%nat -> (1 - tiltSpeed) ^ n <= 0.05.
Proof.
  intros Hn. replace n with (100 + (n - 100))%nat by lia.
  rewrite pow_add.
  pose proof (smoothing_decays (n - 100)) as Hk.
  assert ((1 - tiltSpeed) ^ 100 <= 0.05) as H100 by (unfold tiltSpeed; lra).
  pose proof (smoothing_decays 100) as H0. nra.
Qed.

(** X12: with the flags held as they are for [n] frames and the ship
    loaded, the pitch and the roll approach the targets of the flags
    geometrically: their offsets from the targets (pitch: 0.2 for backward,
    else -0.2 for forward, else 0; roll: -0.4 for yawLeft, else 0.4 for
    yawRight, else 0) are [0.97^n] times the offsets at the start, at most
    a twentieth of them from the hundredth frame on, and below any bound
    eventually.  The ship and the camera pivot have both turned by [n]
    times the yaw step of the flags (0.005, -0.005 or 0). *)
Theorem held_flags (w : World) (ship : Object3D) :
  spaceShip w = Some ship ->
  (forall n : nat,
     exists a : Object3D,
       spaceShip (frames n w) = Some a /\
       pitch a - pitchTarget w = 0.97 ^ n * (pitch ship - pitchTarget w) /\
       roll a - rollTarget w = 0.97 ^ n * (roll ship - rollTarget w) /\
       yaw a = yaw ship + INR n * yawRate w /\
       yaw (cameraPivot (frames n w)) = yaw (cameraPivot w) + INR n * yawRate w /\
       ((100 <= n)%nat ->
        Rabs (pitch a - pitchTarget w) <= 0.05 * Rabs (pitch ship - pitchTarget w) /\
        Rabs (roll a - rollTarget w) <= 0.05 * Rabs (roll ship - rollTarget w))) /\
  (forall eps : R, 0 < eps ->
     exists N : nat, forall n : nat, (N <= n)%nat ->
       exists a : Object3D,
         spaceShip (frames n w) = Some a /\
         Rabs (pitch a - pitchTarget w) < eps /\
         Rabs (roll a - rollTarget w) < eps).
Proof.
  intros H.
  assert (1 - tiltSpeed = 0.97) as Hk by (unfold tiltSpeed; lra).
  split.
  - intros n.
    destruct (frames_pose n w ship H) as [a [Ha [Hp [Hr [Hy Hpy]]]]].
    rewrite Hk in Hp, Hr.
    exists a. repeat split; try assumption.
    + rewrite Hp, Rabs_mult.
      pose proof (smoothing_decays n) as Hd. pose proof (smoothing_100 n H0) as H100.
      rewrite Hk in Hd, H100.
      rewrite (Rabs_right (0.97 ^ n)) by lra.
      pose proof (Rabs_pos (pitch ship - pitchTarget w)). nra.
    + rewrite Hr, Rabs_mult.
      pose proof (smoothing_decays n) as Hd. pose proof (smoothing_100 n H0) as H100.
      rewrite Hk in Hd, H100.
      rewrite (Rabs_right (0.97 ^ n)) by lra.
      pose proof (Rabs_pos (roll ship - rollTarget w)). nra.
  - intros eps Heps.
    destruct (smoothing_vanishes eps Heps (pitch ship - pitchTarget w)) as [N1 HN1].
    destruct (smoothing_vanishes eps Heps (roll ship - rollTarget w)) as [N2 HN2].
    exists (Nat.max N1 N2). intros n Hn.
    destruct (frames_pose n w ship H) as [a [Ha [Hp [Hr _]]]].
    exists a. split; [exact Ha |]. rewrite Hp, Hr.
    split; [apply HN1 | apply HN2]; lia.
Qed.

Lemma held_flags_witness :
  exists a : Object3D,
    spaceShip (frames 100
                 (world0 (Some (mkObject3D (mkVector3 0 0 0) (mkEuler (- 0.2) 1 0.4)
                                  (mkVector3 2 2 2)))
                    false false false false FocusNull))
      = Some a /\
    Rabs (pitch a - 0) <= 0.05 * Rabs (- 0.2 - 0) /\
    Rabs (roll a - 0) <= 0.05 * Rabs (0.4 - 0) /\
    yaw a = 1 + INR 100 * 0.
Proof.
  destruct (held_flags
              (world0 (Some (mkObject3D (mkVector3 0 0 0) (mkEuler (- 0.2) 1 0.4)
                               (mkVector3 2 2 2)))
                 false false false false FocusNull)
              (mkObject3D (mkVector3 0 0 0) (mkEuler (- 0.2) 1 0.4) (mkVector3 2 2 2))
              eq_refl)
    as [Hn _].
  destruct (Hn 100%nat) as [a [Ha [_ [_ [Hy [_ Hclose]]]]]].
  destruct (Hclose (le_n 100)) as [Hp Hr].
  exists a. repeat split; assumption.
Defined.

(** ** Further properties: climbing and sinking *)

Lemma sin_abs_le (x : R) : Rabs (sin x) <= Rabs x.
Proof.
  assert (forall y, 0 < y -> - y <= sin y <= y) as Hpos.
  { intros y Hy. split; [| left; apply sin_lt_x; exact Hy].
    pose proof PI2_1 as Hpi.
    destruct (Rle_dec y PI) as [Hle | Hgt].
    - pose proof (sin_ge_0 y (Rlt_le _ _ Hy) Hle). lra.
    - pose proof (SIN_bound y). lra. }
  apply Rabs_bound.
  destruct (Rtotal_order x 0) as [Hneg | [-> | Hp]].
  - rewrite (Rabs_left x) by exact Hneg.
    assert (0 < - x) as Hx by lra.
    pose proof (Hpos (- x) Hx) as H. rewrite sin_neg in H. lra.
  - rewrite sin_0, Rabs_R0. lra.
  - rewrite (Rabs_right x) by lra. apply Hpos. exact Hp.
Qed.

Lemma direction_y_bound (o : Object3D) :
  Rabs (vy (getWorldDirection o)) <= Rabs (pitch o).
Proof.
  destruct (getWorldDirection_cases o) as [Hp [Hn Hz]].
  assert (Rabs (sin (pitch o) * cos (yaw o)) <= Rabs (pitch o)) as Hb.
  { rewrite Rabs_mult.
    pose proof (sin_abs_le (pitch o)) as Hs.
    pose proof (Rabs_pos (sin (pitch o))) as Hs0.
    assert (Rabs (cos (yaw o)) <= 1) as Hc
      by (apply Rabs_bound; pose proof (COS_bound (yaw o)); lra).
    pose proof (Rabs_pos (cos (yaw o))). nra. }
  destruct (Rtotal_order (vz (scale o)) 0) as [Hneg | [H0 | Hpos]].
  - rewrite (Hn Hneg). cbn [vy]. exact Hb.
  - rewrite (Hz H0). cbn [vy]. rewrite Rabs_R0. apply Rabs_pos.
  - rewrite (Hp Hpos). cbn [vy]. rewrite Rabs_Ropp. exact Hb.
Qed.

Lemma handle_keeps_tilt (w : World) (e : Event) : tiltBounded w -> tiltBounded (handle w e).
Proof. intros Hw. exact (run_keeps_tilt [e] w Hw). Qed.

Lemma frame_height (w : World) (ship ship' : Object3D) :
  spaceShip w = Some ship -> tiltBounded w ->
  spaceShip (moveAndRotateSpaceShip w) = Some ship' ->
  Rabs (vy (position ship') - vy (position ship)) <= 0.06.
Proof.
  intros H Hb H'. destruct (frame_pose w ship H) as [s [Hs [Hp _]]].
  rewrite Hs in H'. injection H' as <-.
  unfold tiltBounded in Hb. rewrite H in Hb. destruct Hb as [_ Hpitch].
  rewrite Hp. unfold add, multiplyScalar, stepLength. cbn [vx vy vz].
  replace (vy (position ship) + vy (getWorldDirection ship) * 0.3 - vy (position ship))
    with (vy (getWorldDirection ship) * 0.3) by ring.
  rewrite Rabs_mult, (Rabs_right 0.3) by lra.
  pose proof (direction_y_bound ship) as Hd. unfold forwardTiltAngle in Hpitch. lra.
Qed.

(** X13: a ship within the tilt bounds climbs or sinks by at most 0.06 per
    frame: over any session of key events and frames its height at the end
    differs from its height at the start by at most 0.06 times the number
    of frames. *)
Theorem ship_height_bound (es : list Event) :
  forall (w : World) (ship : Object3D),
    spaceShip w = Some ship ->
    Rabs (roll ship) <= 0.4 /\ Rabs (pitch ship) <= 0.2 ->
    exists ship',
      spaceShip (run es w) = Some ship' /\
      Rabs (vy (position ship') - vy (position ship)) <= 0.06 * INR (frameCount es).
Proof.
  unfold run. induction es as [| e es IH]; intros w ship H Hb.
  - exists ship. cbn. split; [exact H |].
    replace (vy (position ship) - vy (position ship)) with 0 by ring.
    rewrite Rabs_R0. lra.
  - cbn [fold_left].
    assert (tiltBounded w) as Hw by (unfold tiltBounded; rewrite H; exact Hb).
    pose proof (handle_keeps_tilt w e Hw) as Hw1.
    assert (exists s1, spaceShip (handle w e) = Some s1 /\
              Rabs (vy (position s1) - vy (position ship))
              <= 0.06 * INR (frameCount (e :: es)) - 0.06 * INR (frameCount es))
      as [s1 [H1 Hd1]].
    { destruct e as [k | k |]; cbn [handle frameCount].
      - exists ship. destruct (key_events_keep_ship k w) as [Hk _].
        rewrite Hk. split; [exact H |].
        replace (vy (position ship) - vy (position ship)) with 0 by ring.
        rewrite Rabs_R0. lra.
      - exists ship. destruct (key_events_keep_ship k w) as [_ Hk].
        rewrite Hk. split; [exact H |].
        replace (vy (position ship) - vy (position ship)) with 0 by ring.
        rewrite Rabs_R0. lra.
      - destruct (frame_pose w ship H) as [s1 [Hs1 _]].
        exists s1. split; [exact Hs1 |].
        pose proof (frame_height w ship s1 H Hw Hs1) as Hd.
        rewrite S_INR. lra. }
    assert (Rabs (roll s1) <= 0.4 /\ Rabs (pitch s1) <= 0.2) as Hb1
      by (unfold tiltBounded in Hw1; rewrite H1 in Hw1; exact Hw1).
    destruct (IH _ s1 H1 Hb1) as [ship' [H' Hd']].
    exists ship'. split; [exact H' |].
    replace (vy (position ship') - vy (position ship))
      with ((vy (position ship') - vy (position s1))
            + (vy (position s1) - vy (position ship))) by ring.
    pose proof (Rabs_triang (vy (position ship') - vy (position s1))
                            (vy (position s1) - vy (position ship))).
    lra.
Qed.

Lemma ship_height_bound_witness :
  exists ship',
    spaceShip (run [KeyDown "w"; Frame; Frame]
                 (world0 (Some loadedShip) false false false false FocusSpacial))
      = Some ship' /\
    Rabs (vy (position ship') - 0) <= 0.06 * INR 2.
Proof.
  apply (ship_height_bound [KeyDown "w"; Frame; Frame]
           (world0 (Some loadedShip) false false false false FocusSpacial)
           loadedShip eq_refl).
  unfold roll, pitch. cbn. rewrite Rabs_R0. split; lra.
Defined.

(** ** Further properties: left and right *)

Lemma getWorldDirection_mirror (o : Object3D) :
  getWorldDirection (mirrorPose o) =
  mkVector3 (- vx (getWorldDirection o)) (vy (getWorldDirection o))
            (vz (getWorldDirection o)).
Proof.
  unfold getWorldDirection, normalize.
  rewrite !length_multiplyScalar, !length_zAxis.
  cbn [mirrorPose scale rotation].
  destruct (Req_dec_T (Rabs (vz (scale o)) * 1) 0) as [H0 | Hn];
    unfold multiplyScalar, zAxis; cbn [vx vy vz ex ey ez];
    rewrite sin_neg, cos_neg; f_equal; ring.
Qed.

(** X14: steering is symmetric, the tie-break apart.  Unless yawLeft and
    yawRight are both set, reflecting a world in the plane [x = 0] (x, yaw
    and roll of ship and pivot change sign, yawLeft and yawRight change
    places) and then running a frame gives the reflection of the frame run
    on the world itself.  (With both set, yawLeft wins in the world and in
    its reflection.) *)
Theorem frame_mirror (w : World) :
  rotateLeft w && rotateRight w = false ->
  moveAndRotateSpaceShip (mirrorWorld w) = mirrorWorld (moveAndRotateSpaceShip w).
Proof.
  destruct w as [[ship |] pv f b l r c]; [| reflexivity].
  cbn [rotateLeft rotateRight]. intros Hlr.
  unfold moveAndRotateSpaceShip, mirrorWorld, tiltPitch, turnAndRoll.
  cbn [spaceShip cameraPivot moveForward moveBackward rotateLeft rotateRight
       currentPlanet option_map].
  rewrite getWorldDirection_mirror.
  destruct l, r; try discriminate Hlr; destruct f, b;
    cbn [fst snd option_map spaceShip cameraPivot moveForward moveBackward
         rotateLeft rotateRight currentPlanet];
    unfold mirrorPose, setRotationX, setRotationY, setRotationZ, setPosition, add,
      multiplyScalar, lerp, tiltAngle, forwardTiltAngle, tiltSpeed, yawStep, stepLength;
    cbn [position rotation scale vx vy vz ex ey ez];
    f_equal; repeat (f_equal; try lra).
Qed.

Lemma frame_mirror_witness :
  moveAndRotateSpaceShip
    (mirrorWorld (world0 (Some loadedShip) true false true false FocusSpacial))
  = mirrorWorld
      (moveAndRotateSpaceShip (world0 (Some loadedShip) true false true false FocusSpacial)).
Proof.
  apply (frame_mirror (world0 (Some loadedShip) true false true false FocusSpacial)).
  reflexivity.
Defined.

(** With both yaw flags set the reflection fails: the ship turns by +0.005
    in the world and in its reflection. *)
Lemma frame_mirror_tie :
  moveAndRotateSpaceShip
    (mirrorWorld (world0 (Some loadedShip) false false true true FocusSpacial))
  <> mirrorWorld
       (moveAndRotateSpaceShip (world0 (Some loadedShip) false false true true FocusSpacial)).
Proof.
  intros H. apply (f_equal (fun w => option_map yaw (spaceShip w))) in H.
  unfold moveAndRotateSpaceShip, mirrorWorld, tiltPitch, turnAndRoll in H.
  cbn [spaceShip cameraPivot moveForward moveBackward rotateLeft rotateRight
       currentPlanet option_map world0 fst snd] in H.
  injection H as Hy. unfold yaw, yawStep in Hy.
  cbn [loadedShip mirrorPose setRotationX setRotationY setRotationZ setPosition
       rotation ex ey ez] in Hy.
  lra.
Qed.

(** ** Further properties: the focus buttons *)

Lemma button_focus (resetCamera : World -> World) (meshAt : nat -> option nat)
    (i : nat) (w : World) :
  keepsFocusAndShip resetCamera ->
  currentPlanet (button_onclick resetCamera meshAt i w) =
  if sameFocus (currentPlanet w) (meshFocus meshAt i) then FocusNull
  else meshFocus meshAt i.
Proof.
  intros Hk. unfold button_onclick.
  destruct (sameFocus (currentPlanet w) (meshFocus meshAt i)).
  - destruct (Hk (setCurrentPlanet FocusNull w)) as [Hc _]. rewrite Hc. reflexivity.
  - reflexivity.
Qed.

Lemma keydown_without_control (key : string) (w : World) :
  spacial (currentPlanet w) = false -> keydown key w = w.
Proof. intros H. unfold keydown. rewrite H. reflexivity. Qed.

(** X15: the buttons switch the ship's keys on and off, provided that
    [resetCamera] writes neither the focus nor the ship.  After "Vista
    libre" or the button of any list entry every key-down is ignored; after
    "Nave espacial" a key-down of a direction key sets its flag exactly when
    the ship is loaded.  The button of an entry toggles: it leaves the focus
    on the entry's body, or on nothing if that body had the focus (or the
    entry has no body); so a second click undoes the first when the focus
    was on that body or on nothing. *)
Theorem buttons_gate_ship_keys
    (resetCamera : World -> World) (meshAt : nat -> option nat) :
  keepsFocusAndShip resetCamera ->
  forall (w : World) (i : nat) (key : string),
    keydown key (resetButton_onclick resetCamera w) = resetButton_onclick resetCamera w /\
    keydown key (button_onclick resetCamera meshAt i w)
      = button_onclick resetCamera meshAt i w /\
    (forall d : Direction, directionOfKey key = Some d ->
       flag d (keydown key (spacialButton_onclick resetCamera w))
       = (isSome (spaceShip w) || flag d (spacialButton_onclick resetCamera w))%bool) /\
    currentPlanet (button_onclick resetCamera meshAt i w)
      = (if sameFocus (currentPlanet w) (meshFocus meshAt i) then FocusNull
         else meshFocus meshAt i) /\
    (currentPlanet w = FocusNull \/ currentPlanet w = meshFocus meshAt i ->
     currentPlanet (button_onclick resetCamera meshAt i
                      (button_onclick resetCamera meshAt i w))
     = currentPlanet w).
Proof.
  intros Hk w i key.
  split; [| split; [| split; [| split]]].
  - apply keydown_without_control. unfold resetButton_onclick.
    destruct (Hk (setCurrentPlanet FocusNull w)) as [Hc _]. rewrite Hc. reflexivity.
  - apply keydown_without_control. rewrite button_focus by exact Hk.
    destruct (sameFocus (currentPlanet w) (meshFocus meshAt i)); [reflexivity |].
    unfold meshFocus. destruct (meshAt i); reflexivity.
  - intros d Hd. rewrite keydown_cases, Hd. unfold shipControlled, spacialButton_onclick.
    destruct (Hk (setCurrentPlanet FocusSpacial w)) as [Hc Hs]. rewrite Hc, Hs.
    cbn [setCurrentPlanet currentPlanet spaceShip spacial andb].
    destruct (isSome (spaceShip w)); cbn [orb]; [| reflexivity].
    rewrite flag_setFlag. destruct d; reflexivity.
  - apply button_focus. exact Hk.
  - intros Hstart. rewrite !button_focus by exact Hk.
    unfold meshFocus in *. destruct (meshAt i) as [b |].
    + destruct Hstart as [-> | ->]; cbn [sameFocus].
      * rewrite Nat.eqb_refl. reflexivity.
      * rewrite Nat.eqb_refl. reflexivity.
    + destruct Hstart as [-> | ->]; reflexivity.
Qed.

Lemma pivotHome_keeps : keepsFocusAndShip pivotHome.
Proof. intros w. split; reflexivity. Qed.

Lemma buttons_gate_ship_keys_witness :
  keydown "w" (resetButton_onclick pivotHome
                 (world0 (Some loadedShip) false false false false FocusSpacial))
  = resetButton_onclick pivotHome
      (world0 (Some loadedShip) false false false false FocusSpacial) /\
  flag Forward
    (keydown "w" (spacialButton_onclick pivotHome
                    (world0 (Some loadedShip) false false false false FocusNull)))
  = true /\
  currentPlanet
    (button_onclick pivotHome (fun i => Some i) 3
       (button_onclick pivotHome (fun i => Some i) 3
          (world0 (Some loadedShip) false false false false (FocusBody 3))))
  = FocusBody 3.
Proof.
  split; [| split].
  - apply (buttons_gate_ship_keys pivotHome (fun i => Some i) pivotHome_keeps
             (world0 (Some loadedShip) false false false false FocusSpacial) 0 "w").
  - destruct (buttons_gate_ship_keys pivotHome (fun i => Some i) pivotHome_keeps
                (world0 (Some loadedShip) false false false false FocusNull) 0 "w")
      as [_ [_ [Hship _]]].
    exact (Hship Forward eq_refl).
  - destruct (buttons_gate_ship_keys pivotHome (fun i => Some i) pivotHome_keeps
                (world0 (Some loadedShip) false false false false (FocusBody 3)) 3 "w")
      as [_ [_ [_ [_ Htwice]]]].
    apply Htwice. right. reflexivity.
Defined.

(** ** Further properties: the constructor of [Planet] *)

(** X16: the layer of clouds.  A planet gets a clouds mesh exactly when both
    cloud URLs are given and not empty; the mesh is then a sphere of 1.05
    times the planet's radius (outside the planet for a positive radius)
    with the two textures, and the given opacity, be it 0, or 0.1 when none
    is given.  The planet's own geometry and material do not depend on the
    cloud options. *)
Theorem clouds_layer (radius : R) (mapUrl : string) (o : PlanetModel.Options) :
  let planet := PlanetModel.newPlanet radius mapUrl o in
  (PlanetModel.cloudsMesh planet <> None <->
   exists c a : string,
     PlanetModel.cloudMapUrl o = Some c /\ c <> EmptyString /\
     PlanetModel.cloudAlphaMapUrl o = Some a /\ a <> EmptyString) /\
  (forall g m,
     PlanetModel.cloudsMesh planet = Some (g, m) ->
     PlanetModel.sphereRadius g = radius * 1.05 /\
     (0 < radius -> radius < PlanetModel.sphereRadius g) /\
     PlanetModel.widthSegments g = 20%nat /\ PlanetModel.heightSegments g = 20%nat /\
     Some (PlanetModel.cloudMap m) = PlanetModel.cloudMapUrl o /\
     Some (PlanetModel.alphaMap m) = PlanetModel.cloudAlphaMapUrl o /\
     PlanetModel.opacity m =
       match PlanetModel.cloudOpacity o with Some x => x | None => 0.1 end) /\
  PlanetModel.planetGeometry planet
    = PlanetModel.planetGeometry
        (PlanetModel.newPlanet radius mapUrl (PlanetModel.withoutClouds o)) /\
  PlanetModel.planetMaterial planet
    = PlanetModel.planetMaterial
        (PlanetModel.newPlanet radius mapUrl (PlanetModel.withoutClouds o)) /\
  PlanetModel.cloudsMesh
    (PlanetModel.newPlanet radius mapUrl (PlanetModel.withoutClouds o)) = None.
Proof.
  cbv zeta. unfold PlanetModel.newPlanet.
  cbn [PlanetModel.cloudsMesh PlanetModel.planetGeometry PlanetModel.planetMaterial].
  split; [| split; [| split; [| split]]]; try reflexivity.
  - destruct (PlanetModel.cloudMapUrl o) as [[| c0 c] |];
      destruct (PlanetModel.cloudAlphaMapUrl o) as [[| a0 a] |];
      cbn [PlanetModel.truthy andb];
      (split;
       [ intros H; first [ now contradiction H
                         | eexists; eexists; repeat split; discriminate ]
       | intros [c' [a' [Hc [Hc0 [Ha Ha0]]]]] H;
         first [ discriminate H | discriminate Hc | discriminate Ha
               | injection Hc as <-; contradiction Hc0; reflexivity
               | injection Ha as <-; contradiction Ha0; reflexivity ] ]).
  - intros g m.
    destruct (PlanetModel.cloudMapUrl o) as [[| c0 c] |];
      destruct (PlanetModel.cloudAlphaMapUrl o) as [[| a0 a] |];
      cbn [PlanetModel.truthy andb]; intros H; try discriminate H.
    injection H as <- <-.
    cbn [PlanetModel.sphereRadius PlanetModel.widthSegments PlanetModel.heightSegments
         PlanetModel.cloudMap PlanetModel.alphaMap PlanetModel.opacity].
    unfold PlanetModel.orDefault.
    repeat split. intros Hr. lra.
Qed.

Lemma clouds_layer_witness :
  exists g m,
    PlanetModel.cloudsMesh PlanetModel.Earth = Some (g, m) /\
    PlanetModel.sphereRadius g = 5 * 1.05 /\
    5 < PlanetModel.sphereRadius g /\
    PlanetModel.opacity m = 0.3.
Proof.
  eexists. eexists. split; [reflexivity |].
  destruct (clouds_layer 5 "http://127.0.0.1:3000/earth.jpg"
              (PlanetModel.mkOptions
                 (Some "http://127.0.0.1:3000/earth_bump.jpg"%string) (Some 0.1)
                 (Some "http://127.0.0.1:3000/earth_specular.jpg"%string)
                 (Some "blue"%string) (Some 50) None
                 (Some "http://127.0.0.1:3000/earth_clouds.jpg"%string)
                 (Some "http://127.0.0.1:3000/earth_clouds_alpha.jpg"%string)
                 (Some 0.3)))
    as [_ [Hshell _]].
  destruct (Hshell _ _ eq_refl) as [Hr [Hout [_ [_ [_ [_ Hop]]]]]].
  split; [exact Hr |]. split; [apply Hout; lra | exact Hop].
Defined.
